(** * DNS resolver: cache key, expiry policy, TTL rewriting and the
      two-tier cache orchestration of [src/dns-operation/dnsResolver.js].

    The functions of the class [DNSResolver] are embedded one by one, under
    their own names.  JavaScript numbers are integers here ([Z]); every number
    the resolver handles (TTLs, millisecond clocks, query ids) is an integer
    far inside the range where doubles are exact.  A string is the sequence of
    the bytes of its UTF-8 encoding: [trim] strips the white space of
    ECMAScript, and [toLowerCase], whose Unicode case mappings are the
    runtime's, is a parameter of the resolver.  Logging calls ([log.d],
    [log.w], [log.e]) have no effect on results and are left out. *)

From Stdlib Require Import ZArith Lia Strings.Byte Strings.Ascii Strings.String.
From stdpp Require Import gmap strings list fin_maps pretty.

Local Open Scope Z_scope.

(** ** Decoded packets *)

Definition bytes := list byte.

Record Question := {
  q_name : string;
  q_type : string
}.

(** [ttl] is [None] when the record carries no [ttl] property (the
    pseudo-record OPT is decoded without one). *)
Record Answer := {
  a_name : string;
  a_type : string;
  ttl : option Z
}.

Record Packet := {
  p_id : Z;
  p_rcode : string;
  questions : list Question;
  answers : list Answer
}.

Definition set_ttl (a : Answer) (t : Z) : Answer :=
  {| a_name := a_name a; a_type := a_type a; ttl := Some t |}.

Definition set_answers (p : Packet) (l : list Answer) : Packet :=
  {| p_id := p_id p; p_rcode := p_rcode p; questions := questions p;
     answers := l |}.

Definition set_id (p : Packet) (i : Z) : Packet :=
  {| p_id := i; p_rcode := p_rcode p; questions := questions p;
     answers := answers p |}.

(** ** JavaScript values that may be falsy *)

(** A value that is [null], [false] or an object. *)
Inductive maybe (A : Type) : Type :=
  | JNull : maybe A
  | JFalse : maybe A
  | JObj : A -> maybe A.
Arguments JNull {A}.
Arguments JFalse {A}.
Arguments JObj {A} _.

Definition falsy {A} (v : maybe A) : bool :=
  match v with JObj _ => false | _ => true end.

(** [!k] on a key that is [null] or a string: the empty string is falsy. *)
Definition falsy_key (k : option string) : bool :=
  match k with
  | None => true
  | Some s => if decide (s = "") then true else false
  end.

(** [!n] on a number that may be absent. *)
Definition falsy_num (n : option Z) : bool :=
  match n with
  | None => true
  | Some z => z =? 0
  end.

(** [x || d] on a number that may be absent. *)
Definition num_or (n : option Z) (d : Z) : Z :=
  if falsy_num n then d else default d n.

(** ** String helpers of the JavaScript runtime *)

(** The characters that [String.prototype.trim] strips, each by the bytes
    of its UTF-8 encoding: the white space of ECMAScript (U+0009, U+000B,
    U+000C, U+FEFF and the space separators U+0020, U+00A0, U+1680,
    U+2000 to U+200A, U+202F, U+205F, U+3000) and its line terminators
    (U+000A, U+000D, U+2028, U+2029). *)
Definition whitespace : list (list ascii) :=
  map (map ascii_of_nat)
    [ [9]; [10]; [11]; [12]; [13]; [32];
      [194; 160];
      [225; 154; 128];
      [226; 128; 128]; [226; 128; 129]; [226; 128; 130]; [226; 128; 131];
      [226; 128; 132]; [226; 128; 133]; [226; 128; 134]; [226; 128; 135];
      [226; 128; 136]; [226; 128; 137]; [226; 128; 138];
      [226; 128; 168]; [226; 128; 169]; [226; 128; 175];
      [226; 129; 159];
      [227; 128; 128];
      [239; 187; 191] ]%nat.

Definition starts_with (w l : list ascii) : bool :=
  bool_decide (take (length w) l = w).

(** Drop from the front of [l] every leading sequence of [ws]; [n] bounds
    the number of rounds. *)
Fixpoint strip_fuel (n : nat) (ws : list (list ascii)) (l : list ascii)
  : list ascii :=
  match n with
  | O => l
  | S n' =>
      match List.find (fun w => starts_with w l) ws with
      | Some w => strip_fuel n' ws (drop (length w) l)
      | None => l
      end
  end.

Definition strip (ws : list (list ascii)) (l : list ascii) : list ascii :=
  strip_fuel (length l) ws l.

Definition trimStart (s : string) : string :=
  string_of_list_ascii (strip whitespace (list_ascii_of_string s)).

(** At the end the encodings are met last byte first. *)
Definition trimEnd (s : string) : string :=
  string_of_list_ascii
    (rev (strip (map (@rev ascii) whitespace) (rev (list_ascii_of_string s)))).

Definition trim (s : string) : string := trimEnd (trimStart s).

(** A string made of white space only. *)
Definition whitespace_only (s : string) : Prop :=
  ∃ ps, Forall (fun w => w ∈ whitespace) ps ∧
        list_ascii_of_string s = concat ps.

(** ** Constants of the module *)

Definition ttlGraceSec : Z := 30.
Definition httpCacheTtl : Z := 604800.

(** ** Errors, the resolver's world and its effects *)

Inductive JsError :=
  | Error (msg : string)
  | TypeError (msg : string).

Inductive outcome (A : Type) : Type :=
  | Ok : A -> outcome A
  | Throw : JsError -> outcome A.
Arguments Ok {A} _.
Arguments Throw {A} _.

(** The object [{dnsPacket, decodedDnsPacket, ttlEndTime}] built by
    [makeCacheResponse]; the local cache holds objects of the same shape in
    which a property may be missing ([None]). *)
Record CacheRes := {
  dnsPacket : bytes;
  decodedDnsPacket : option Packet;
  ttlEndTime : option Z
}.

(** The search result of the blocklist filter for a name. *)
Definition BlocklistInfo := list (string * string).

(** The object serialised into the header [x-rethink-metadata]. *)
Record Metadata := {
  md_ttlEndTime : option Z;
  md_bodyUsed : bool;
  md_blocklistInfo : BlocklistInfo
}.

(** A response of the edge cache: its body and its headers.  [e_metadata] is
    [None] when the header [x-rethink-metadata] is missing. *)
Record EdgeResponse := {
  e_body : bytes;
  e_metadata : option Metadata;
  e_contentLength : Z;
  e_cacheTtl : Z
}.

(** [clock] gives the successive readings of [Date.now()], [ticks] counts the
    readings made so far.  [dnsResCache] is the local cache, [httpCache] the
    edge cache ([None] outside Workers), [deferred] the puts handed to
    [event.waitUntil] and not awaited, [rejections] the errors of promises
    nobody awaits. *)
Record World := {
  clock : nat -> Z;
  ticks : nat;
  dnsResCache : gmap string CacheRes;
  httpCache : option (gmap string EdgeResponse);
  deferred : list (string * EdgeResponse);
  rejections : list JsError
}.

Definition now (w : World) : Z := clock w (ticks w).

Definition tick (w : World) : World :=
  {| clock := clock w; ticks := S (ticks w); dnsResCache := dnsResCache w;
     httpCache := httpCache w; deferred := deferred w;
     rejections := rejections w |}.

Definition set_dnsResCache (m : gmap string CacheRes) (w : World) : World :=
  {| clock := clock w; ticks := ticks w; dnsResCache := m;
     httpCache := httpCache w; deferred := deferred w;
     rejections := rejections w |}.

Definition add_deferred (t : string * EdgeResponse) (w : World) : World :=
  {| clock := clock w; ticks := ticks w; dnsResCache := dnsResCache w;
     httpCache := httpCache w; deferred := deferred w ++ [t];
     rejections := rejections w |}.

Definition add_rejection (e : JsError) (w : World) : World :=
  {| clock := clock w; ticks := ticks w; dnsResCache := dnsResCache w;
     httpCache := httpCache w; deferred := deferred w;
     rejections := rejections w ++ [e] |}.

(** Computations of the resolver: they read and change the world and end
    with a value or a thrown error. *)
Definition M (A : Type) : Type := World -> outcome A * World.

#[export] Instance M_ret : MRet M := fun A a w => (Ok a, w).

#[export] Instance M_bind : MBind M := fun A B f m w =>
  match m w with
  | (Ok a, w') => f a w'
  | (Throw e, w') => (Throw e, w')
  end.

Definition throw {A} (e : JsError) : M A := fun w => (Throw e, w).

Definition get_world : M World := fun w => (Ok w, w).

Definition lift {A} (r : outcome A) : M A := fun w => (r, w).

(** [Date.now()] *)
Definition Date_now : M Z := fun w => (Ok (now w), tick w).

(** [this.dnsResCache.Put(k, v)]; what the bounded store evicts is its own
    business and is not modelled. *)
Definition dnsResCache_Put (k : string) (v : CacheRes) : M unit :=
  fun w => (Ok tt, set_dnsResCache (<[k := v]> (dnsResCache w)) w).

(** [param.event.waitUntil(this.httpCache.put(cacheUrl, value))]: the put is
    registered and runs after the caller has gone on. *)
Definition waitUntil_put (cacheUrl : string) (value : EdgeResponse) : M unit :=
  fun w => (Ok tt, add_deferred (cacheUrl, value) w).

(** The call of an [async] function whose promise is dropped: its body runs
    up to its first [await] (here: to its end), and an error inside rejects
    the promise instead of reaching the caller. *)
Definition detached (m : M unit) : M unit := fun w =>
  match m w with
  | (Ok _, w') => (Ok tt, w')
  | (Throw e, w') => (Ok tt, add_rejection e w')
  end.

(** Modelled from the spec: [util.safeBox] is not in src; it is the
    swallow-and-log wrapper: the value of the function, or [null] when the
    function throws. *)
Definition safeBox {A} (r : outcome A) : maybe A :=
  match r with
  | Ok a => JObj a
  | Throw _ => JNull
  end.

(** Modelled from the spec: [dnsutil.rcodeNoError] is not in src; the
    response code is "no error". *)
Definition rcodeNoError (p : Packet) : bool :=
  if decide (p_rcode p = "NOERROR") then true else false.

(** Modelled from the spec: [dnsutil.hasAnswers] is not in src; the packet
    has at least one answer. *)
Definition hasAnswers (p : Packet) : bool :=
  match answers p with
  | [] => false
  | _ :: _ => true
  end.

(** ** Expiry of a new cache entry *)

(** One round of the loop: [minttl = Math.min(a.ttl || minttl, minttl)]. *)
Definition minttl_step (minttl : Z) (a : Answer) : Z :=
  Z.min (num_or (ttl a) minttl) minttl.

Definition determineCacheExpiry (decodedDnsPacket : Packet) : M Z :=
  let expiresImmediately := 0 in
  if negb (rcodeNoError decodedDnsPacket) then mret expiresImmediately else
  if negb (hasAnswers decodedDnsPacket) then mret expiresImmediately else
  let minttl := fold_left minttl_step (answers decodedDnsPacket) (Z.shiftl 1 30) in
  if minttl =? Z.shiftl 1 30 then mret expiresImmediately else
  let minttl := Z.max (minttl + ttlGraceSec) ttlGraceSec in
  t ← Date_now;
  let expiry := t + minttl * 1000 in
  mret expiry.

(** ** Query id *)

Definition updateQueryId (decodedDnsPacket : Packet) (queryId : Z)
  : bool * Packet :=
  if queryId =? 0 then (false, decodedDnsPacket) else
  if queryId =? p_id decodedDnsPacket then (false, decodedDnsPacket) else
  (true, set_id decodedDnsPacket queryId).

(** ** The request and the upstream answer *)

Record Request := {
  url : string;
  method : string
}.

(** [blocklistFilter name] is [blFilter.getDomainInfo(name).searchResult]. *)
Record Param := {
  request : Request;
  requestBodyBuffer : bytes;
  dnsResolverUrl : string;
  requestDecodedDnsPacket : Packet;
  blocklistFilter : string -> BlocklistInfo
}.

Record UpResponse := {
  up_ok : bool;
  up_status : Z;
  up_statusText : string;
  up_body : bytes
}.

(** What [resolveRequest] returns. *)
Record Resolved := {
  responseBodyBuffer : bytes;
  responseDecodedDnsPacket : option Packet
}.

(** ** Properties and methods of a [DNSResolver] object *)

(** The fields set by the constructor, the methods of the class body and the
    two functions assigned to [DNSResolver.prototype]. *)
Definition DNSResolver_members : list string :=
  [ "dnsParser"; "dnsResCache"; "httpCache"; "http2"; "nodeUtil"; "transport";
    "lazyInit"; "RethinkModule"; "resolveRequest"; "resolveFromCache";
    "resolveFromLocalCache"; "resolveFromHttpCache"; "makeCacheResponse";
    "updateCachesIfNeeded"; "updateLocalCacheIfNeeded";
    "updateHttpCacheIfNeeded"; "httpCacheHeaders"; "upstreamQuery";
    "determineCacheExpiry"; "cacheKey"; "httpCacheKey"; "updateQueryId";
    "updateTtl"; "resolveDnsUpstream"; "doh2" ]%string.

(** The functions declared at the top level of the module; they are not
    properties of the object. *)
Definition module_functions : list string := [ "httpCacheMetadata" ]%string.

(** [this.name(...)]: the call goes through when [name] is a member of the
    object, and throws a [TypeError] otherwise ([this.name] is [undefined]). *)
Definition call_this {A} (name : string) (body : outcome A) : outcome A :=
  if decide (name ∈ DNSResolver_members) then body
  else Throw (TypeError ("this." +:+ name +:+ " is not a function")).

(** The top-level function [httpCacheMetadata]. *)
Definition httpCacheMetadata (cacheRes : CacheRes)
    (blFilter : string -> BlocklistInfo) : outcome Metadata :=
  match decodedDnsPacket cacheRes with
  | None => Throw (TypeError "cannot read properties of undefined")
  | Some decoded =>
      match questions decoded with
      | [q] =>
          let name := q_name q in
          Ok {| md_ttlEndTime := ttlEndTime cacheRes;
                md_bodyUsed := true;
                md_blocklistInfo := blFilter name |}
      | _ => Throw (Error "cache expects just the one dns question")
      end
  end.

(** [httpCacheHeaders], with the [Response] built around them: the metadata
    header, the content length, and the [cf] cache hint. *)
Definition httpCacheHeaders (cres : CacheRes)
    (blFilter : string -> BlocklistInfo) : outcome EdgeResponse :=
  match call_this "httpCacheMetadata" (httpCacheMetadata cres blFilter) with
  | Throw e => Throw e
  | Ok md =>
      Ok {| e_body := dnsPacket cres;
            e_metadata := Some md;
            e_contentLength := Z.of_nat (length (dnsPacket cres));
            e_cacheTtl := httpCacheTtl |}
  end.

(** ** The expiry policy in the words of the specification *)

(** The TTLs that the answers carry, in order. *)
Definition answerTTLs (p : Packet) : list Z := omap ttl (answers p).

(** The minimum of a list of TTLs ([0] for the empty list). *)
Definition min_ttl (l : list Z) : Z :=
  match l with
  | [] => 0
  | t :: ts => fold_left Z.min ts t
  end.

(** "Take the minimum TTL across all answers, add the grace period, floor it
    at the grace period, and add to current time." *)
Definition claimed_expiry (t : Z) (p : Packet) : Z :=
  t + Z.max (min_ttl (answerTTLs p) + ttlGraceSec) ttlGraceSec * 1000.

(** The TTLs that take part in the minimum computed by the code: those that
    are present, not zero, and below the start value [1 << 30]. *)
Definition countedTTLs (l : list Answer) : list Z :=
  filter (fun t => t ≠ 0 ∧ t < Z.shiftl 1 30) (omap ttl l).

(** An answer whose TTL is zero or absent. *)
Definition no_ttl (a : Answer) : bool := falsy_num (ttl a).

(** ** Sample data *)

(** A lower-casing for the samples: that of the letters A to Z, which is
    what the runtime's does on a name of ASCII characters. *)
Definition lower_char (c : ascii) : ascii :=
  let n := nat_of_ascii c in
  if ((65 <=? n) && (n <=? 90))%nat then ascii_of_nat (n + 32) else c.

Fixpoint sample_toLowerCase (s : string) : string :=
  match s with
  | EmptyString => EmptyString
  | String c r => String (lower_char c) (sample_toLowerCase r)
  end.

Definition sample_question : Question :=
  {| q_name := "  Example.COM "; q_type := "A" |}.

(** The no-break space U+00A0 and the em space U+2003, and the sample name
    between them. *)
Definition nbsp : string := string_of_list_ascii (map ascii_of_nat [194; 160]%nat).
Definition em_space : string :=
  string_of_list_ascii (map ascii_of_nat [226; 128; 131]%nat).

Definition unicode_question : Question :=
  {| q_name := nbsp +:+ "Example.COM" +:+ em_space; q_type := "A" |}.

Definition plain_question : Question :=
  {| q_name := "Example.COM"; q_type := "A" |}.

Definition question_packet (q : Question) : Packet :=
  {| p_id := 7; p_rcode := "NOERROR"; questions := [q]; answers := [] |}.

Definition sample_request_packet : Packet :=
  {| p_id := 7; p_rcode := "NOERROR"; questions := [sample_question];
     answers := [] |}.

Definition answer_A (t : option Z) : Answer :=
  {| a_name := "example.com"; a_type := "A"; ttl := t |}.

Definition answer_OPT : Answer :=
  {| a_name := "."; a_type := "OPT"; ttl := None |}.

(** A "no error" packet with the given answers. *)
Definition sample_packet (l : list Answer) : Packet :=
  {| p_id := 7; p_rcode := "NOERROR"; questions := [sample_question];
     answers := l |}.

(** A world whose clock stands still at [t], with empty caches. *)
Definition world_at (t : Z) (edge : option (gmap string EdgeResponse)) : World :=
  {| clock := fun _ => t; ticks := 0; dnsResCache := ∅; httpCache := edge;
     deferred := []; rejections := [] |}.

(** Modelled from the spec: [dnsutil.optAnswer] is not in src; the
    pseudo-record is the one of type OPT. *)
Definition sample_optAnswer (a : Answer) : bool :=
  if decide (a_type a = "OPT") then true else false.

(** A parser that rejects the empty message and any message whose first
    byte is [0xff], and reads every other message as one A record of TTL
    300; an encoder that always answers. *)
Definition sample_Decode (b : bytes) : outcome Packet :=
  match b with
  | [] => Throw (Error "empty message")
  | x :: _ =>
      if Byte.eqb x xff then Throw (Error "malformed message")
      else Ok (sample_packet [answer_A (Some 300)])
  end.

Definition sample_Encode (p : Packet) : outcome bytes := Ok [x0a; x0b].

(** The least size of a DNS message taken for the samples: a header of 12
    bytes and a question of 5. *)
Definition sample_minDNSPacketSize : Z := 17.

(** Modelled from the spec: [dnsutil.validResponseSize] is not in src; a
    valid answer is at least as long as the least DNS message. *)
Definition sample_validResponseSize (b : bytes) : bool :=
  sample_minDNSPacketSize <=? Z.of_nat (length b).

Definition sample_urlOrigin (u : string) : string := "https://edge.example".

(** An upstream that answers with status 200 and the given body. *)
Definition sample_upstream (body : bytes)
  : Request -> string -> bytes -> outcome (option UpResponse) :=
  fun _ _ _ =>
    Ok (Some {| up_ok := true; up_status := 200; up_statusText := "OK";
                up_body := body |}).

Definition sample_param : Param :=
  {| request := {| url := "https://edge.example/dns-query";
                   method := "POST" |};
     requestBodyBuffer := [x00; x07];
     dnsResolverUrl := "https://upstream.example/dns-query";
     requestDecodedDnsPacket := sample_request_packet;
     blocklistFilter := fun _ => [] |}.

Definition sample_time : Z := 1700000000000.

(** A local entry and an edge response with the given body and expiry. *)
Definition local_entry (b : bytes) (e : option Z) : CacheRes :=
  {| dnsPacket := b; decodedDnsPacket := None; ttlEndTime := e |}.

Definition edge_entry (b : bytes) (e : option Z) : EdgeResponse :=
  {| e_body := b;
     e_metadata := Some {| md_ttlEndTime := e; md_bodyUsed := true;
                           md_blocklistInfo := [] |};
     e_contentLength := Z.of_nat (length b);
     e_cacheTtl := httpCacheTtl |}.

(** A world at [sample_time] whose clock stands still, with one local
    entry under the sample key and, when [edge] is given, an edge tier with
    one response under the sample key. *)
Definition sample_world (local : CacheRes) (edge : option EdgeResponse)
  : World :=
  {| clock := fun _ => sample_time; ticks := 0;
     dnsResCache := {[ "example.com:A"%string := local ]};
     httpCache :=
       match edge with
       | None => None
       | Some r => Some {[ "https://edge.example/example.com:A"%string := r ]}
       end;
     deferred := []; rejections := [] |}.

(** A body of 20 bytes, and one of 20 bytes that the sample parser
    rejects. *)
Definition sample_body : bytes := replicate 20 x01.
Definition sample_bad_body : bytes := xff :: replicate 19 x01.

(** What [makeCacheResponse] makes of a fresh, cacheable answer. *)
Definition sample_cacheRes : CacheRes :=
  {| dnsPacket := sample_body;
     decodedDnsPacket := Some (sample_packet [answer_A (Some 300)]);
     ttlEndTime := Some (sample_time + 330000) |}.

(** A request without a question, and one with two. *)
Definition no_question_packet : Packet :=
  {| p_id := 7; p_rcode := "NOERROR"; questions := []; answers := [] |}.

Definition two_question_packet : Packet :=
  {| p_id := 7; p_rcode := "NOERROR";
     questions := [sample_question; sample_question]; answers := [] |}.

(** ** The upstream exchange, [DNSResolver.prototype.resolveDnsUpstream] *)

Module Upstream.

(** The components of a [URL] object that the function reads or sets. *)
Record URL := {
  protocol : string;
  hostname : string;
  port : string;
  pathname : string;
  search : string
}.

(** The [Request] built for the upstream: its URL, method, and, for a POST,
    the content length, the DNS headers and the body. *)
Record OutRequest := {
  o_url : URL;
  o_method : string;
  o_contentLength : option Z;
  o_dnsHeaders : bool;
  o_body : option bytes
}.

(** [this.transport]: the two queries of the datagram transport.  An answer
    is a buffer or [null]; a query may also reject. *)
Record Transport := {
  udpquery : bytes -> outcome (option bytes);
  tcpquery : bytes -> outcome (option bytes)
}.

(** What the function finds around it: [this.transport], whether
    [this.http2] is set, [envutil.isWorkers()], the helpers
    [dnsutil.truncated] and [dnsutil.dnsqurl], the parser of [new URL(s)],
    the setters of a [URL] object, which are the runtime's (they may
    normalise what they are given, drop a port that is the default of the
    scheme, or refuse a value), and the two HTTP clients [fetch] and
    [this.doh2]. *)
Record Env := {
  transport : option Transport;
  http2 : bool;
  isWorkers : bool;
  truncated : bytes -> bool;
  dnsqurl : bytes -> string;
  parseURL : string -> outcome URL;
  set_hostname : URL -> string -> URL;
  set_pathname : URL -> string -> URL;
  set_port : URL -> string -> URL;
  set_protocol : URL -> string -> URL;
  set_search : URL -> string -> URL;
  fetch : OutRequest -> outcome (option UpResponse);
  doh2 : OutRequest -> outcome (option UpResponse)
}.

(** The exchanges with the network, in the order they are made. *)
Inductive NetCall :=
  | UdpQuery (q : bytes)
  | TcpQuery (q : bytes)
  | Fetch (r : OutRequest)
  | Doh2 (r : OutRequest).

(** [ans ? new Response(util.arrayBufferOf(ans))
         : new Response(null, { status: 503 })] *)
Definition response_of (ans : option bytes) : UpResponse :=
  match ans with
  | Some a =>
      {| up_ok := true; up_status := 200; up_statusText := ""; up_body := a |}
  | None =>
      {| up_ok := false; up_status := 503; up_statusText := "";
         up_body := [] |}
  end.

(** The four assignments [u.hostname = ...], [u.pathname = ...],
    [u.port = ...], [u.protocol = ...], in the order of the source. *)
Definition override (env : Env) (u dnsResolverUrl : URL) : URL :=
  let u := set_hostname env u (hostname dnsResolverUrl) in
  let u := set_pathname env u (pathname dnsResolverUrl) in
  let u := set_port env u (port dnsResolverUrl) in
  let u := set_protocol env u (protocol dnsResolverUrl) in
  u.

(** The function returns its result together with the exchanges it made.
    [util.bufferOf] and [util.arrayBufferOf] only change the view on the
    bytes. *)
Definition resolveDnsUpstream (env : Env) (request : Request)
    (resolverUrl : string) (requestBodyBuffer : bytes)
  : outcome (option UpResponse) * list NetCall :=
  match transport env with
  | Some t =>
      let q := requestBodyBuffer in
      match udpquery t q with
      | Throw e => (Throw e, [UdpQuery q])
      | Ok ans =>
          let retry := match ans with
                       | Some a => truncated env a
                       | None => false
                       end in
          if retry then
            match tcpquery t q with
            | Throw e => (Throw e, [UdpQuery q; TcpQuery q])
            | Ok ans' =>
                (Ok (Some (response_of ans')), [UdpQuery q; TcpQuery q])
            end
          else (Ok (Some (response_of ans)), [UdpQuery q])
      end
  | None =>
      match parseURL env (url request) with
      | Throw e => (Throw e, [])
      | Ok u =>
          match parseURL env resolverUrl with
          | Throw e => (Throw e, [])
          | Ok dnsResolverUrl =>
              let u := override env u dnsResolverUrl in
              let newRequest :=
                if bool_decide (method request = "GET")
                   || (isWorkers env && bool_decide (method request = "POST"))
                then
                  let u := set_search env u
                             ("?dns=" +:+ dnsqurl env requestBodyBuffer) in
                  Ok {| o_url := u; o_method := "GET";
                        o_contentLength := None; o_dnsHeaders := false;
                        o_body := None |}
                else if bool_decide (method request = "POST") then
                  Ok {| o_url := u; o_method := "POST";
                        o_contentLength :=
                          Some (Z.of_nat (length requestBodyBuffer));
                        o_dnsHeaders := true;
                        o_body := Some requestBodyBuffer |}
                else Throw (Error "get/post requests only") in
              match newRequest with
              | Throw e => (Throw e, [])
              | Ok r =>
                  if http2 env then (doh2 env r, [Doh2 r])
                  else (fetch env r, [Fetch r])
              end
          end
      end
  end.

(** The function as [upstreamQuery] sees it. *)
Definition answer (env : Env) (request : Request) (resolverUrl : string)
    (requestBodyBuffer : bytes) : outcome (option UpResponse) :=
  (resolveDnsUpstream env request resolverUrl requestBodyBuffer).1.

End Upstream.

(** ** The collaborators of a resolver object, [constructor] and [lazyInit] *)

Module Init.


(** [new LocalCache(name, size)] *)
Record LocalCache := {
  lc_name : string;
  lc_size : Z;
  lc_entries : gmap string CacheRes
}.

(** [new Transport(host, port)] *)
Record Transport := {
  t_host : string;
  t_port : Z
}.

(** The fields of the object but [dnsParser]; [None] is [null].  The edge
    cache is given by its content; [http2] and [nodeUtil] are modules, given
    by their names. *)
Record DNSResolver := {
  dnsResCache : option LocalCache;
  httpCache : option (gmap string EdgeResponse);
  http2 : option string;
  nodeUtil : option string;
  transport : option Transport
}.

Definition constructor : DNSResolver :=
  {| dnsResCache := None; httpCache := None; http2 := None; nodeUtil := None;
     transport := None |}.


End Init.

(** ** Vocabulary for the whole resolution *)

(** The object that [updateLocalCacheIfNeeded] stores for a cache response,
    and the object that [resolveRequest] returns for it. *)
Definition stored_entry (v : CacheRes) : CacheRes :=
  {| dnsPacket := dnsPacket v; decodedDnsPacket := None;
     ttlEndTime := ttlEndTime v |}.

Definition resolved_of (c : CacheRes) : Resolved :=
  {| responseBodyBuffer := dnsPacket c;
     responseDecodedDnsPacket := decodedDnsPacket c |}.

(** The error left by the edge write. *)
Definition edge_write_error : JsError :=
  TypeError "this.httpCacheMetadata is not a function".

(** ** Sample data for the upstream exchange *)

(** A transport with fixed answers, and an environment around it: an answer
    counts as truncated when its first byte is [0x02]; every non-empty URL
    parses, to a host of that name; the setters store what they are
    given. *)
Definition sample_transport (udp tcp : outcome (option bytes))
  : Upstream.Transport :=
  {| Upstream.udpquery := fun _ => udp; Upstream.tcpquery := fun _ => tcp |}.

Definition sample_truncated (b : bytes) : bool :=
  match b with
  | x :: _ => Byte.eqb x x02
  | [] => false
  end.

Definition sample_parseURL (s : string) : outcome Upstream.URL :=
  if decide (s = "") then Throw (TypeError "Invalid URL")
  else Ok {| Upstream.protocol := "https:"; Upstream.hostname := s;
             Upstream.port := ""; Upstream.pathname := "/dns-query";
             Upstream.search := "?ct" |}.

(** Setters that store what they are given. *)
Definition store_hostname (u : Upstream.URL) (v : string) : Upstream.URL :=
  {| Upstream.protocol := Upstream.protocol u; Upstream.hostname := v;
     Upstream.port := Upstream.port u; Upstream.pathname := Upstream.pathname u;
     Upstream.search := Upstream.search u |}.

Definition store_pathname (u : Upstream.URL) (v : string) : Upstream.URL :=
  {| Upstream.protocol := Upstream.protocol u;
     Upstream.hostname := Upstream.hostname u;
     Upstream.port := Upstream.port u; Upstream.pathname := v;
     Upstream.search := Upstream.search u |}.

Definition store_port (u : Upstream.URL) (v : string) : Upstream.URL :=
  {| Upstream.protocol := Upstream.protocol u;
     Upstream.hostname := Upstream.hostname u;
     Upstream.port := v; Upstream.pathname := Upstream.pathname u;
     Upstream.search := Upstream.search u |}.

Definition store_protocol (u : Upstream.URL) (v : string) : Upstream.URL :=
  {| Upstream.protocol := v; Upstream.hostname := Upstream.hostname u;
     Upstream.port := Upstream.port u; Upstream.pathname := Upstream.pathname u;
     Upstream.search := Upstream.search u |}.

Definition store_search (u : Upstream.URL) (v : string) : Upstream.URL :=
  {| Upstream.protocol := Upstream.protocol u;
     Upstream.hostname := Upstream.hostname u;
     Upstream.port := Upstream.port u; Upstream.pathname := Upstream.pathname u;
     Upstream.search := v |}.

Definition sample_env (t : option Upstream.Transport) (h2 workers : bool)
  : Upstream.Env :=
  {| Upstream.transport := t;
     Upstream.http2 := h2;
     Upstream.isWorkers := workers;
     Upstream.truncated := sample_truncated;
     Upstream.dnsqurl := fun _ => "AAc";
     Upstream.parseURL := sample_parseURL;
     Upstream.set_hostname := store_hostname;
     Upstream.set_pathname := store_pathname;
     Upstream.set_port := store_port;
     Upstream.set_protocol := store_protocol;
     Upstream.set_search := store_search;
     Upstream.fetch := fun _ => Ok (Some (Upstream.response_of (Some sample_body)));
     Upstream.doh2 := fun _ => Ok (Some (Upstream.response_of (Some sample_body))) |}.

Definition sample_truncated_answer : bytes := x02 :: replicate 19 x01.

Definition sample_request (m : string) : Request :=
  {| url := "client.example"; method := m |}.

(** What the resolver makes of the sample answer of the upstream: the
    re-encoded bytes, the packet with the TTL rewritten, the expiry. *)
Definition sample_fresh_cacheRes : CacheRes :=
  {| dnsPacket := [x0a; x0b];
     decodedDnsPacket := Some (sample_packet [answer_A (Some 330)]);
     ttlEndTime := Some (sample_time + 330000) |}.

(** A packet with the response code of a name that does not exist, and a
    parser that reads every message as that packet. *)
Definition nxdomain_packet : Packet :=
  {| p_id := 7; p_rcode := "NXDOMAIN"; questions := [sample_question];
     answers := [] |}.

Definition nxdomain_Decode (b : bytes) : outcome Packet := Ok nxdomain_packet.

(** The sample request with two questions, and an upstream that cannot be
    reached. *)
Definition sample_param_two : Param :=
  {| request := request sample_param;
     requestBodyBuffer := requestBodyBuffer sample_param;
     dnsResolverUrl := dnsResolverUrl sample_param;
     requestDecodedDnsPacket := two_question_packet;
     blocklistFilter := blocklistFilter sample_param |}.

Definition unreachable_upstream
  : Request -> string -> bytes -> outcome (option UpResponse) :=
  fun _ _ _ => Throw (Error "network unreachable").

Section Resolver.

(** [String.prototype.toLowerCase]: the lower-casing of the runtime, by the
    case mappings of Unicode. *)
Variable toLowerCase : string -> string.

(** The collaborators of the resolver.  [Decode] and [Encode] are the two
    methods of [this.dnsParser]; [optAnswer] and [validResponseSize] are
    the helpers of [dnsutil]; [urlOrigin u] is [new URL(u).origin];
    [resolveDnsUpstream] is the exchange with the upstream resolver, whose
    outcome the network decides. *)
Variable Decode : bytes -> outcome Packet.
Variable Encode : Packet -> outcome bytes.
Variable optAnswer : Answer -> bool.
Variable validResponseSize : bytes -> bool.
Variable urlOrigin : string -> string.
Variable resolveDnsUpstream :
  Request -> string -> bytes -> outcome (option UpResponse).

(** *** Cache key *)

Definition cacheKey (packet : Packet) : option string :=
  match questions packet with
  | [q] =>
      let name := toLowerCase (trim (q_name q)) in
      let type := q_type q in
      Some (name +:+ ":" +:+ type)
  | _ => None
  end.

(** *** TTL rewriting *)

(** The loop of [updateTtl] over the answers, with the flag [updated]. *)
Fixpoint updateTtl_loop (outttl : Z) (l : list Answer) (updated : bool)
  : bool * list Answer :=
  match l with
  | [] => (updated, [])
  | a :: rest =>
      if optAnswer a then
        let r := updateTtl_loop outttl rest updated in (r.1, a :: r.2)
      else if decide (ttl a = Some outttl) then
        let r := updateTtl_loop outttl rest updated in (r.1, a :: r.2)
      else
        let r := updateTtl_loop outttl rest true in
        (r.1, set_ttl a outttl :: r.2)
  end.

(** [updateTtl] changes the packet in place and returns the flag; here it
    returns the flag and the packet after the call. *)
Definition updateTtl (decodedDnsPacket : Packet) (end_ : Z)
  : M (bool * Packet) :=
  let updated := false in
  t ← Date_now;
  if end_ <? t then mret (updated, decodedDnsPacket) else
  let outttl := Z.max ((end_ - t) / 1000) ttlGraceSec in
  let r := updateTtl_loop outttl (answers decodedDnsPacket) updated in
  mret (r.1, set_answers decodedDnsPacket r.2).

(** *** Cache responses *)

Definition makeCacheResponse (queryId : Z) (dnsPacket : bytes)
    (expiry : option Z) : M (maybe CacheRes) :=
  stale ← match expiry with
          | None => mret false
          | Some e => t ← Date_now; mret (e <? t)
          end;
  if (stale : bool) then mret JFalse else
  match safeBox (Decode dnsPacket) with
  | JNull | JFalse => mret JFalse
  | JObj decodedDnsPacket =>
      expiry ← match expiry with
               | None => determineCacheExpiry decodedDnsPacket
               | Some e => mret e
               end;
      r1 ← updateTtl decodedDnsPacket expiry;
      let r2 := updateQueryId r1.2 queryId in
      let reencode := r2.1 || r1.1 in
      let decodedDnsPacket := r2.2 in
      match safeBox (if reencode then Encode decodedDnsPacket
                     else Ok dnsPacket) with
      | JNull | JFalse => mret JFalse
      | JObj updatedDnsPacket =>
          mret (JObj {| dnsPacket := updatedDnsPacket;
                        decodedDnsPacket := Some decodedDnsPacket;
                        ttlEndTime := Some expiry |})
      end
  end.

Definition httpCacheKey (u p : string) : string :=
  urlOrigin u +:+ "/" +:+ p.

Definition resolveFromLocalCache (queryId : Z) (key : string)
  : M (maybe CacheRes) :=
  w ← get_world;
  match dnsResCache w !! key with
  | None => mret JFalse
  | Some cres => makeCacheResponse queryId (dnsPacket cres) (ttlEndTime cres)
  end.

Definition resolveFromHttpCache (queryId : Z) (url key : string)
  : M (maybe CacheRes) :=
  w ← get_world;
  match httpCache w with
  | None => mret JFalse
  | Some cache =>
      let hKey := httpCacheKey url key in
      match cache !! hKey with
      | None => mret JFalse
      | Some resp =>
          match e_metadata resp with
          | None => throw (TypeError "cannot read properties of null")
          | Some metadata =>
              let dnsPacket := e_body resp in
              makeCacheResponse queryId dnsPacket (md_ttlEndTime metadata)
          end
      end
  end.

(** *** Cache writes *)

Definition updateLocalCacheIfNeeded (k : option string) (v : maybe CacheRes)
  : M unit :=
  match k, v with
  | Some k', JObj v' =>
      if falsy_key k then mret tt else
      if falsy_num (ttlEndTime v') then mret tt else
      let nv := {| dnsPacket := dnsPacket v';
                   decodedDnsPacket := None;
                   ttlEndTime := ttlEndTime v' |} in
      dnsResCache_Put k' nv
  | _, _ => mret tt
  end.

Definition updateHttpCacheIfNeeded (param : Param) (k : option string)
    (cacheRes : maybe CacheRes) : M unit :=
  w ← get_world;
  match httpCache w with
  | None => mret tt
  | Some _ =>
      match k, cacheRes with
      | Some k', JObj cres =>
          if falsy_key k then mret tt else
          if falsy_num (ttlEndTime cres) then mret tt else
          let cacheUrl := httpCacheKey (url (request param)) k' in
          value ← lift (httpCacheHeaders cres (blocklistFilter param));
          waitUntil_put cacheUrl value
      | _, _ => mret tt
      end
  end.

Definition updateCachesIfNeeded (param : Param) (cacheRes : maybe CacheRes)
  : M unit :=
  if falsy cacheRes then mret tt else
  let k := cacheKey (requestDecodedDnsPacket param) in
  if falsy_key k then mret tt else
  updateLocalCacheIfNeeded k cacheRes;;
  updateHttpCacheIfNeeded param k cacheRes.

(** *** Resolution *)

Definition resolveFromCache (param : Param) : M (maybe CacheRes) :=
  let key := cacheKey (requestDecodedDnsPacket param) in
  let qid := p_id (requestDecodedDnsPacket param) in
  let url := url (request param) in
  match key with
  | None => mret JNull
  | Some k =>
      if falsy_key key then mret JNull else
      cacheRes ← resolveFromLocalCache qid k;
      if falsy cacheRes then
        cacheRes ← resolveFromHttpCache qid url k;
        updateLocalCacheIfNeeded key cacheRes;;
        mret cacheRes
      else mret cacheRes
  end.

Definition upstreamQuery (param : Param) : M (maybe CacheRes) :=
  upRes ← lift (resolveDnsUpstream (request param) (dnsResolverUrl param)
                  (requestBodyBuffer param));
  match upRes with
  | None => throw (Error "no upstream result")
  | Some upRes =>
      if negb (up_ok upRes) then
        throw (Error (pretty (up_status upRes) +:+ " http err: "
                      +:+ up_statusText upRes))
      else
      let dnsPacket := up_body upRes in
      if negb (validResponseSize dnsPacket) then
        throw (Error "inadequate response from upstream")
      else
      let queryId := p_id (requestDecodedDnsPacket param) in
      makeCacheResponse queryId dnsPacket None
  end.

(** [updateCachesIfNeeded] is [async] and is called without [await]: the
    [util.safeBox] around the call gets a promise and never an error, hence
    [detached]. *)
Definition resolveRequest (param : Param) : M Resolved :=
  cres ← resolveFromCache param;
  cres ← (if falsy cres then
            cres ← upstreamQuery param;
            detached (updateCachesIfNeeded param cres);;
            mret cres
          else mret cres);
  match cres with
  | JObj c =>
      mret {| responseBodyBuffer := dnsPacket c;
              responseDecodedDnsPacket := decodedDnsPacket c |}
  | _ => throw (Error "No answer from cache or upstream")
  end.

(** The steps of [resolveRequest] once the cache has given nothing: the
    upstream query, the cache update, and the final test. *)
Definition resolveRequest_upstream (param : Param) : M Resolved :=
  cres ← upstreamQuery param;
  detached (updateCachesIfNeeded param cres);;
  match cres with
  | JObj c =>
      mret {| responseBodyBuffer := dnsPacket c;
              responseDecodedDnsPacket := decodedDnsPacket c |}
  | _ => throw (Error "No answer from cache or upstream")
  end.

(** The steps of [resolveFromCache] once the local cache has given
    nothing: the edge lookup and the promotion of its result. *)
Definition resolveFromCache_edge (param : Param) (k : string)
  : M (maybe CacheRes) :=
  cacheRes ← resolveFromHttpCache (p_id (requestDecodedDnsPacket param))
               (url (request param)) k;
  updateLocalCacheIfNeeded (Some k) cacheRes;;
  mret cacheRes.

(** *** Vocabulary of the statements *)

(** What one round of the loop of [updateTtl] makes of an answer, and
    whether it changes it. *)
Definition rewriteAnswer (outttl : Z) (a : Answer) : Answer :=
  if optAnswer a then a
  else if decide (ttl a = Some outttl) then a
  else set_ttl a outttl.

Definition ttl_changes (outttl : Z) (a : Answer) : bool :=
  negb (optAnswer a) && negb (bool_decide (ttl a = Some outttl)).

(** The two worlds differ by readings of the clock only. *)
Definition same_stores (w w' : World) : Prop :=
  clock w' = clock w ∧ dnsResCache w' = dnsResCache w ∧
  httpCache w' = httpCache w ∧ deferred w' = deferred w ∧
  rejections w' = rejections w.

(** A computation keeps a property of the world, however it ends. *)
Definition preserves {A} (P : World -> Prop) (m : M A) : Prop :=
  ∀ w, P w -> P (m w).2.

Definition tick_closed (P : World -> Prop) : Prop :=
  ∀ w, P w -> P (tick w).

(** Every entry of the local cache has a non-zero expiry and no decoded
    packet; every put handed to [waitUntil] carries a non-zero expiry. *)
Definition entry_clean (c : CacheRes) : Prop :=
  decodedDnsPacket c = None ∧ falsy_num (ttlEndTime c) = false.

Definition put_clean (t : string * EdgeResponse) : Prop :=
  ∃ md, e_metadata t.2 = Some md ∧ falsy_num (md_ttlEndTime md) = false.

Definition caches_clean (w : World) : Prop :=
  (∀ k c, dnsResCache w !! k = Some c -> entry_clean c) ∧
  Forall put_clean (deferred w).


(** ** Facts about the effects *)

Lemma shiftl_1_30 : Z.shiftl 1 30 = 1073741824.
Proof. reflexivity. Qed.

Lemma bind_ok {A B} (m : M A) (f : A -> M B) w a w' :
  m w = (Ok a, w') -> (m ≫= f) w = f a w'.
Proof. intros H. unfold mbind, M_bind. now rewrite H. Qed.

Lemma bind_throw {A B} (m : M A) (f : A -> M B) w e w' :
  m w = (Throw e, w') -> (m ≫= f) w = (Throw e, w').
Proof. intros H. unfold mbind, M_bind. now rewrite H. Qed.

(** ** Trimming *)

Lemma starts_with_true (w l : list ascii) :
  starts_with w l = true -> l = w ++ drop (length w) l.
Proof.
  unfold starts_with. intros H%bool_decide_eq_true_1.
  rewrite <- (take_drop (length w) l) at 1. now rewrite H.
Qed.

Lemma starts_with_app (w r : list ascii) : starts_with w (w ++ r) = true.
Proof. apply bool_decide_eq_true_2, take_app_length. Qed.

Lemma starts_with_false (w l r : list ascii) :
  starts_with w l = false -> l ≠ w ++ r.
Proof. intros H ->. now rewrite starts_with_app in H. Qed.

Lemma find_starts_none (ws : list (list ascii)) (l : list ascii) :
  List.find (fun w => starts_with w l) ws = None ↔
  ∀ w, w ∈ ws -> starts_with w l = false.
Proof.
  induction ws as [|w0 ws IH]; simpl.
  - split; [|done]. intros _ w H. now apply elem_of_nil in H.
  - destruct (starts_with w0 l) eqn:E.
    + split; [done|]. intros H. specialize (H w0 (list_elem_of_here _ _)).
      congruence.
    + rewrite IH. split.
      * intros H w [->|Hw]%elem_of_cons; [done | now apply H].
      * intros H w Hw. apply H. now right.
Qed.

Lemma find_starts_some (ws : list (list ascii)) (l w : list ascii) :
  List.find (fun w => starts_with w l) ws = Some w ->
  w ∈ ws ∧ l = w ++ drop (length w) l.
Proof.
  intros [Hin Hs]%find_some. split; [now apply list_elem_of_In|].
  now apply starts_with_true.
Qed.

Lemma rev_concat (ps : list (list ascii)) :
  rev (concat ps) = concat (map (@rev ascii) (rev ps)).
Proof.
  induction ps as [|p ps IH]; [reflexivity|]. simpl.
  rewrite rev_app_distr, IH, map_app, concat_app. simpl.
  now rewrite app_nil_r.
Qed.

Section StripFacts.

Variable ws : list (list ascii).
Hypothesis ws_nonempty : Forall (fun w => w ≠ []) ws.

Lemma ws_length (w : list ascii) : w ∈ ws -> (0 < length w)%nat.
Proof.
  intros Hw. rewrite Forall_forall in ws_nonempty.
  specialize (ws_nonempty w Hw). destruct w; [done | simpl; lia].
Qed.

Lemma find_starts_nil : List.find (fun w => starts_with w []) ws = None.
Proof.
  apply find_starts_none. intros w Hw. apply bool_decide_eq_false_2.
  pose proof (ws_length w Hw). destruct w; simpl in *; [lia | discriminate].
Qed.

Lemma strip_fuel_irrel (n m : nat) (l : list ascii) :
  (length l <= n)%nat -> (length l <= m)%nat ->
  strip_fuel n ws l = strip_fuel m ws l.
Proof.
  revert m l. induction n as [|n IH]; intros m l Hn Hm.
  - destruct l; [|simpl in Hn; lia]. destruct m; [reflexivity|]. simpl.
    now rewrite find_starts_nil.
  - destruct m as [|m].
    + destruct l; [|simpl in Hm; lia]. simpl. now rewrite find_starts_nil.
    + simpl. destruct (List.find _ ws) as [w|] eqn:E; [|reflexivity].
      apply find_starts_some in E as [Hw El].
      pose proof (ws_length w Hw) as Hlen.
      assert (length l = length w + length (drop (length w) l))%nat
        by (rewrite El at 1; now rewrite length_app).
      apply IH; lia.
Qed.

Lemma strip_fuel_decomp (n : nat) (l : list ascii) :
  ∃ ps, Forall (fun w => w ∈ ws) ps ∧ l = concat ps ++ strip_fuel n ws l.
Proof.
  revert l. induction n as [|n IH]; intros l; [by exists []|]. simpl.
  destruct (List.find _ ws) as [w|] eqn:E; [|by exists []].
  apply find_starts_some in E as [Hw El].
  destruct (IH (drop (length w) l)) as (ps & Hps & Hd).
  exists (w :: ps). split; [now constructor|]. simpl.
  rewrite <- app_assoc, <- Hd. exact El.
Qed.

Lemma strip_fuel_clean (n : nat) (l : list ascii) :
  (length l <= n)%nat ->
  List.find (fun w => starts_with w (strip_fuel n ws l)) ws = None.
Proof.
  revert l. induction n as [|n IH]; intros l Hn.
  - destruct l; [|simpl in Hn; lia]. apply find_starts_nil.
  - simpl.
    destruct (List.find (fun w => starts_with w l) ws) as [w|] eqn:E;
      [|exact E].
    apply find_starts_some in E as [Hw El].
    pose proof (ws_length w Hw) as Hlen.
    assert (length l = length w + length (drop (length w) l))%nat
      by (rewrite El at 1; now rewrite length_app).
    apply IH. lia.
Qed.

Lemma strip_decomp (l : list ascii) :
  ∃ ps, Forall (fun w => w ∈ ws) ps ∧ l = concat ps ++ strip ws l.
Proof. apply strip_fuel_decomp. Qed.

Lemma strip_clean (l w : list ascii) :
  w ∈ ws -> starts_with w (strip ws l) = false.
Proof.
  intros Hw. pose proof (strip_fuel_clean (length l) l (le_n _)) as H.
  rewrite find_starts_none in H. now apply H.
Qed.

Lemma strip_fixed (l : list ascii) :
  (∀ w, w ∈ ws -> starts_with w l = false) -> strip ws l = l.
Proof.
  intros H. unfold strip. destruct (length l); [reflexivity|]. simpl.
  now rewrite (proj2 (find_starts_none ws l) H).
Qed.

(** No sequence of [ws] is the beginning of another one. *)
Hypothesis ws_prefix_free :
  ∀ w w', w ∈ ws -> w' ∈ ws -> w `prefix_of` w' -> w = w'.

Lemma strip_one (w l : list ascii) :
  w ∈ ws -> strip ws (w ++ l) = strip ws l.
Proof.
  intros Hw. pose proof (ws_length w Hw) as Hlen. unfold strip.
  rewrite length_app. destruct (length w + length l)%nat as [|n] eqn:En;
    [lia|].
  simpl. destruct (List.find _ ws) as [w'|] eqn:E.
  - apply find_starts_some in E as [Hw' El].
    assert (w' = w) as ->.
    { destruct (prefix_weak_total w w' (w ++ l)) as [Hp|Hp].
      - by exists l.
      - rewrite El. by eexists.
      - symmetry. now apply ws_prefix_free.
      - now apply ws_prefix_free. }
    rewrite drop_app_length. apply strip_fuel_irrel; lia.
  - rewrite find_starts_none in E. specialize (E w Hw).
    now rewrite starts_with_app in E.
Qed.

Lemma strip_concat (ps : list (list ascii)) (l : list ascii) :
  Forall (fun w => w ∈ ws) ps -> strip ws (concat ps ++ l) = strip ws l.
Proof.
  induction 1 as [|w ps Hw _ IH]; [reflexivity|]. simpl.
  now rewrite <- app_assoc, strip_one.
Qed.

(** No byte after the first of a sequence of [ws] is the first byte of
    one. *)
Hypothesis ws_no_overlap :
  ∀ w w' x, w ∈ ws -> w' ∈ ws -> x ∈ tail w -> head w' ≠ Some x.

Lemma concat_head (qs : list (list ascii)) (x : ascii) (r : list ascii) :
  Forall (fun w => w ∈ ws) qs -> concat qs = x :: r ->
  ∃ q, q ∈ ws ∧ head q = Some x.
Proof.
  induction 1 as [|q qs Hq _ IH]; [discriminate|]. simpl.
  pose proof (ws_length q Hq). destruct q as [|y q']; [simpl in *; lia|].
  intros [= -> _]. by exists (x :: q').
Qed.

Lemma strip_stable (m : list ascii) (qs : list (list ascii)) :
  m ≠ [] -> (∀ w, w ∈ ws -> starts_with w m = false) ->
  Forall (fun w => w ∈ ws) qs ->
  strip ws (m ++ concat qs) = m ++ concat qs.
Proof.
  intros Hm Hclean Hqs. apply strip_fixed. intros w Hw.
  destruct (starts_with w (m ++ concat qs)) eqn:E; [|reflexivity].
  exfalso. apply starts_with_true in E.
  apply app_eq_inv in E as [(k & -> & Hk) | (k & -> & Hk)].
  - specialize (Hclean w Hw). now rewrite starts_with_app in Hclean.
  - destruct k as [|x k].
    + rewrite app_nil_r in Hw. specialize (Hclean m Hw).
      rewrite <- (app_nil_r m) in Hclean at 2.
      now rewrite starts_with_app in Hclean.
    + destruct (concat_head qs x _ Hqs Hk) as (q & Hq & Hh).
      apply (ws_no_overlap (m ++ x :: k) q x Hw Hq); [|exact Hh].
      destruct m as [|y m']; [done|]. simpl.
      apply elem_of_app. right. left.
Qed.

End StripFacts.

(** *** The white space of ECMAScript *)

Lemma whitespace_nonempty : Forall (fun w : list ascii => w ≠ []) whitespace.
Proof. apply (bool_decide_unpack _). by vm_compute. Qed.

Lemma whitespace_prefix_free (w w' : list ascii) :
  w ∈ whitespace -> w' ∈ whitespace -> w `prefix_of` w' -> w = w'.
Proof.
  assert (H : Forall (fun w : list ascii =>
                Forall (fun w' : list ascii => w `prefix_of` w' -> w = w')
                  whitespace) whitespace)
    by (apply (bool_decide_unpack _); by vm_compute).
  intros Hw Hw'. rewrite Forall_forall in H. specialize (H w Hw).
  rewrite Forall_forall in H. now apply H.
Qed.

Lemma whitespace_no_overlap (w w' : list ascii) (x : ascii) :
  w ∈ whitespace -> w' ∈ whitespace -> x ∈ tail w -> head w' ≠ Some x.
Proof.
  assert (H : Forall (fun w : list ascii =>
                Forall (fun w' : list ascii =>
                  Forall (fun x => head w' ≠ Some x) (tail w))
                  whitespace) whitespace)
    by (apply (bool_decide_unpack _); by vm_compute).
  intros Hw Hw' Hx. rewrite Forall_forall in H. specialize (H w Hw).
  rewrite Forall_forall in H. specialize (H w' Hw').
  rewrite Forall_forall in H. now apply H.
Qed.

Lemma whitespace_rev_nonempty :
  Forall (fun w : list ascii => w ≠ []) (map (@rev ascii) whitespace).
Proof. apply (bool_decide_unpack _). by vm_compute. Qed.

Lemma whitespace_rev_prefix_free (w w' : list ascii) :
  w ∈ map (@rev ascii) whitespace -> w' ∈ map (@rev ascii) whitespace ->
  w `prefix_of` w' -> w = w'.
Proof.
  assert (H : Forall (fun w : list ascii =>
                Forall (fun w' : list ascii => w `prefix_of` w' -> w = w')
                  (map (@rev ascii) whitespace))
                (map (@rev ascii) whitespace))
    by (apply (bool_decide_unpack _); by vm_compute).
  intros Hw Hw'. rewrite Forall_forall in H. specialize (H w Hw).
  rewrite Forall_forall in H. now apply H.
Qed.

Lemma rev_whitespace (qs : list (list ascii)) :
  Forall (fun w => w ∈ map (@rev ascii) whitespace) qs ->
  Forall (fun w => w ∈ whitespace) (map (@rev ascii) (rev qs)).
Proof.
  intros H. apply Forall_forall. intros w Hw.
  apply list_elem_of_fmap in Hw as (q & -> & Hq).
  apply list_elem_of_In, in_rev, list_elem_of_In in Hq.
  rewrite Forall_forall in H. specialize (H q Hq).
  apply list_elem_of_fmap in H as (w & -> & Hw).
  now rewrite rev_involutive.
Qed.

Lemma whitespace_rev (qs : list (list ascii)) :
  Forall (fun w => w ∈ whitespace) qs ->
  Forall (fun w => w ∈ map (@rev ascii) whitespace) (map (@rev ascii) (rev qs)).
Proof.
  intros H. apply Forall_forall. intros w Hw.
  apply list_elem_of_fmap in Hw as (q & -> & Hq).
  apply list_elem_of_In, in_rev, list_elem_of_In in Hq.
  rewrite Forall_forall in H. specialize (H q Hq).
  apply list_elem_of_fmap. by exists q.
Qed.

Lemma list_of_append (a b : string) :
  list_ascii_of_string (a +:+ b)
  = list_ascii_of_string a ++ list_ascii_of_string b.
Proof. induction a as [|c a IH]; [reflexivity|]. simpl. now rewrite IH. Qed.

Lemma trimStart_bytes (s : string) :
  list_ascii_of_string (trimStart s)
  = strip whitespace (list_ascii_of_string s).
Proof. apply list_ascii_of_string_of_list_ascii. Qed.

Lemma trim_bytes (s : string) :
  list_ascii_of_string (trim s)
  = rev (strip (map (@rev ascii) whitespace)
           (rev (strip whitespace (list_ascii_of_string s)))).
Proof.
  unfold trim, trimEnd.
  now rewrite list_ascii_of_string_of_list_ascii, trimStart_bytes.
Qed.

(** What [trim] does: the string is white space, the trimmed string, white
    space; and the trimmed string neither begins nor ends with white
    space. *)
Lemma trim_decomp (s : string) :
  ∃ pre post,
    s = pre +:+ trim s +:+ post ∧ whitespace_only pre ∧ whitespace_only post.
Proof.
  destruct (strip_decomp whitespace (list_ascii_of_string s))
    as (ps & Hps & Hs).
  destruct (strip_decomp (map (@rev ascii) whitespace)
              (rev (strip whitespace (list_ascii_of_string s))))
    as (qs & Hqs & Ht).
  apply (f_equal (@rev ascii)) in Ht.
  rewrite rev_involutive, rev_app_distr, rev_concat, <- trim_bytes in Ht.
  exists (string_of_list_ascii (concat ps)),
         (string_of_list_ascii (concat (map (@rev ascii) (rev qs)))).
  split; [|split].
  - rewrite <- (string_of_list_ascii_of_string s) at 1.
    rewrite <- (string_of_list_ascii_of_string
                  (_ +:+ trim s +:+ _)).
    f_equal. rewrite !list_of_append, !list_ascii_of_string_of_list_ascii.
    now rewrite <- Ht.
  - exists ps. split; [exact Hps|].
    apply list_ascii_of_string_of_list_ascii.
  - eexists. split; [exact (rev_whitespace qs Hqs)|].
    apply list_ascii_of_string_of_list_ascii.
Qed.

Lemma trim_clean (s : string) (w : list ascii) :
  w ∈ whitespace ->
  ¬ w `prefix_of` list_ascii_of_string (trim s) ∧
  ¬ w `suffix_of` list_ascii_of_string (trim s).
Proof.
  intros Hw. split.
  - intros [k Hk].
    destruct (strip_decomp (map (@rev ascii) whitespace)
                (rev (strip whitespace (list_ascii_of_string s))))
      as (qs & _ & Ht).
    apply (f_equal (@rev ascii)) in Ht.
    rewrite rev_involutive, rev_app_distr, <- trim_bytes, Hk in Ht.
    pose proof (strip_clean whitespace whitespace_nonempty
                  (list_ascii_of_string s) w Hw) as Hc.
    rewrite Ht, <- app_assoc, starts_with_app in Hc. discriminate.
  - intros [k Hk]. rewrite trim_bytes in Hk.
    apply (f_equal (@rev ascii)) in Hk.
    rewrite rev_involutive, rev_app_distr in Hk.
    pose proof (strip_clean (map (@rev ascii) whitespace)
                  whitespace_rev_nonempty
                  (rev (strip whitespace (list_ascii_of_string s)))
                  (rev w)) as Hc.
    rewrite Hk, starts_with_app in Hc.
    assert (rev w ∈ map (@rev ascii) whitespace)
      by (apply list_elem_of_fmap; by exists w).
    specialize (Hc H). discriminate.
Qed.

(** White space around a string does not change what [trim] gives. *)
Lemma trim_ignores_whitespace (pre s post : string) :
  whitespace_only pre -> whitespace_only post ->
  trim (pre +:+ s +:+ post) = trim s.
Proof.
  intros (ps & Hps & Hpre) (qs & Hqs & Hpost).
  rewrite <- (string_of_list_ascii_of_string (trim (pre +:+ s +:+ post))).
  rewrite <- (string_of_list_ascii_of_string (trim s)). f_equal.
  rewrite !trim_bytes, !list_of_append, Hpre, Hpost. f_equal.
  rewrite (strip_concat whitespace whitespace_nonempty
             whitespace_prefix_free ps _ Hps).
  destruct (strip_decomp whitespace (list_ascii_of_string s))
    as (ps0 & Hps0 & Hs).
  set (m := strip whitespace (list_ascii_of_string s)) in *.
  rewrite Hs at 1. rewrite <- app_assoc.
  rewrite (strip_concat whitespace whitespace_nonempty
             whitespace_prefix_free ps0 _ Hps0).
  destruct m as [|c m'] eqn:Em.
  - simpl. rewrite <- (app_nil_r (concat qs)).
    rewrite (strip_concat whitespace whitespace_nonempty
               whitespace_prefix_free qs _ Hqs).
    reflexivity.
  - rewrite (strip_stable whitespace whitespace_nonempty
               whitespace_no_overlap (c :: m') qs); try done.
    + rewrite rev_app_distr, rev_concat.
      apply (strip_concat (map (@rev ascii) whitespace)
               whitespace_rev_nonempty whitespace_rev_prefix_free).
      now apply whitespace_rev.
    + intros w Hw. rewrite <- Em. unfold m.
      now apply strip_clean; [apply whitespace_nonempty|].
Qed.

Example trim_unicode :
  trim (string_of_list_ascii
          (map ascii_of_nat
             [194; 160; 195; 137; 88; 46; 99; 111; 109; 226; 128; 131]%nat))
  = string_of_list_ascii (map ascii_of_nat [195; 137; 88; 46; 99; 111; 109]%nat).
Proof. reflexivity. Qed.

(** ** The cache key *)

(** C7: [cacheKey] is none exactly when the packet does not have exactly
    one question.  With one question it is the lower-cased, trimmed name,
    a colon, and the record type, where the trimmed name is the name
    without the white space before and after it: the name is white space,
    the trimmed name, white space, and the trimmed name neither begins nor
    ends with a white space character.  The key depends on the questions
    only, so repeated calls on a packet give the same key; and it is never
    the empty string, so that the test [!key] is the test for none. *)
Theorem cacheKey_spec (packet : Packet) :
  (cacheKey packet = None ↔ length (questions packet) ≠ 1%nat) ∧
  (∀ q, questions packet = [q] ->
     cacheKey packet
     = Some (toLowerCase (trim (q_name q)) +:+ ":" +:+ q_type q) ∧
     (∃ pre post,
        q_name q = pre +:+ trim (q_name q) +:+ post ∧
        whitespace_only pre ∧ whitespace_only post) ∧
     (∀ w, w ∈ whitespace ->
        ¬ w `prefix_of` list_ascii_of_string (trim (q_name q)) ∧
        ¬ w `suffix_of` list_ascii_of_string (trim (q_name q)))) ∧
  (∀ packet', questions packet' = questions packet ->
     cacheKey packet' = cacheKey packet) ∧
  (falsy_key (cacheKey packet) = true ↔ cacheKey packet = None).
Proof.
  unfold cacheKey. split; [|split; [|split]].
  - destruct (questions packet) as [|q [|q' l]]; simpl; split;
      intros H; try done; lia.
  - intros q ->. split; [reflexivity|].
    split; [apply trim_decomp | apply trim_clean].
  - intros packet' ->. reflexivity.
  - destruct (questions packet) as [|q [|q' l]]; simpl; try done.
    rewrite decide_False; [done|].
    destruct (toLowerCase (trim (q_name q))); discriminate.
Qed.

(** ** The expiry of a new entry *)

Lemma minttl_step_counted (l : list Answer) (acc : Z) :
  acc <= Z.shiftl 1 30 ->
  fold_left minttl_step l acc = fold_left Z.min (countedTTLs l) acc.
Proof.
  rewrite shiftl_1_30. revert acc.
  induction l as [|a l IH]; intros acc Hacc; [reflexivity|].
  unfold countedTTLs in *. rewrite shiftl_1_30 in *. simpl.
  unfold minttl_step at 2, num_or, falsy_num.
  destruct (ttl a) as [t|]; simpl.
  - rewrite filter_cons. destruct (Z.eqb_spec t 0) as [->|Hne].
    + rewrite decide_False by (intros [? _]; done).
      rewrite Z.min_id. now apply IH.
    + destruct (decide (t ≠ 0 ∧ t < 1073741824)) as [[_ Hlt]|Hno].
      * simpl. rewrite (Z.min_comm acc t). apply IH. lia.
      * rewrite Z.min_r by lia. now apply IH.
  - rewrite Z.min_id. now apply IH.
Qed.

Lemma fold_min_le (l : list Z) (acc : Z) : fold_left Z.min l acc <= acc.
Proof.
  revert acc. induction l as [|x l IH]; intros acc; simpl; [lia|].
  specialize (IH (Z.min acc x)). lia.
Qed.

Lemma counted_below (l : list Answer) (t : Z) :
  t ∈ countedTTLs l -> t ≠ 0 ∧ t < Z.shiftl 1 30.
Proof. unfold countedTTLs. intros H%list_elem_of_filter. tauto. Qed.

Lemma determineCacheExpiry_not_cacheable (p : Packet) (w : World) :
  rcodeNoError p = false ∨ answers p = [] ->
  determineCacheExpiry p w = (Ok 0, w).
Proof.
  unfold determineCacheExpiry, hasAnswers. intros [H|H]; rewrite H; simpl.
  - reflexivity.
  - now destruct (rcodeNoError p).
Qed.

Lemma determineCacheExpiry_counted (p : Packet) (w : World) :
  rcodeNoError p = true -> answers p ≠ [] ->
  determineCacheExpiry p w =
    match countedTTLs (answers p) with
    | [] => (Ok 0, w)
    | t :: ts =>
        (Ok (now w + Z.max (fold_left Z.min ts t + ttlGraceSec) ttlGraceSec
                     * 1000), tick w)
    end.
Proof.
  intros Hrc Hans. unfold determineCacheExpiry, hasAnswers. rewrite Hrc.
  destruct (answers p) as [|a l] eqn:E; [done|]. simpl negb. cbv iota.
  rewrite minttl_step_counted by lia.
  destruct (countedTTLs (a :: l)) as [|t ts] eqn:Ec.
  - simpl. reflexivity.
  - assert (Ht : t < Z.shiftl 1 30).
    { apply (counted_below (a :: l)). rewrite Ec. left. }
    cbn [fold_left]. rewrite (Z.min_r _ t) by lia.
    pose proof (fold_min_le ts t) as Hle.
    destruct (Z.eqb_spec (fold_left Z.min ts t) (Z.shiftl 1 30)) as [Heq|_];
      [lia|].
    reflexivity.
Qed.

(** C1, amended: for a "no error" packet with at least one answer the
    expiry is [now + max(m + 30, 30)] seconds, in milliseconds, where [m]
    is the least of the TTLs that are present, not zero and below
    [1 << 30]; when no answer has such a TTL the result is the
    not-cacheable value 0.  With no answer, or another response code, the
    result is 0. *)
Theorem determineCacheExpiry_spec (p : Packet) (w : World) :
  (rcodeNoError p = true -> length (answers p) ≠ 0%nat ->
   determineCacheExpiry p w =
     match countedTTLs (answers p) with
     | [] => (Ok 0, w)
     | t :: ts =>
         (Ok (now w + Z.max (min_ttl (t :: ts) + 30) 30 * 1000), tick w)
     end) ∧
  (rcodeNoError p = false ∨ length (answers p) = 0%nat ->
   determineCacheExpiry p w = (Ok 0, w)).
Proof.
  split.
  - intros Hrc Hlen. apply determineCacheExpiry_counted; [done|].
    now destruct (answers p).
  - intros [H|H]; apply determineCacheExpiry_not_cacheable; [now left|].
    right. now destruct (answers p).
Qed.

(** C1, as stated, fails: one answer with TTL 0 in a "no error" packet
    gives the not-cacheable value 0, not [now + 30] seconds. *)
Lemma determineCacheExpiry_claimed_counterexample :
  let p := sample_packet [answer_A (Some 0)] in
  let w := world_at 1700000000000 None in
  rcodeNoError p = true ∧ length (answers p) = 1%nat ∧
  claimed_expiry (now w) p = 1700000030000 ∧
  (determineCacheExpiry p w).1 = Ok 0 ∧
  (determineCacheExpiry p w).1 ≠ Ok (claimed_expiry (now w) p).
Proof. repeat split; try reflexivity. discriminate. Qed.

Lemma minttl_step_no_ttl (l : list Answer) (acc : Z) :
  fold_left minttl_step l acc
  = fold_left minttl_step (filter (fun a => no_ttl a = false) l) acc.
Proof.
  revert acc. induction l as [|a l IH]; intros acc; [reflexivity|].
  rewrite filter_cons. simpl. destruct (decide (no_ttl a = false)) as [H|H].
  - simpl. apply IH.
  - rewrite <- IH. f_equal. unfold minttl_step, num_or.
    unfold no_ttl in H. destruct (falsy_num (ttl a)); [lia|done].
Qed.

Lemma minttl_step_all_no_ttl (l : list Answer) (acc : Z) :
  Forall (fun a => ttl a = None ∨ ttl a = Some 0) l ->
  fold_left minttl_step l acc = acc.
Proof.
  intros H. revert acc. induction H as [|a l Ha _ IH]; intros acc;
    [reflexivity|].
  simpl. rewrite IH. unfold minttl_step, num_or.
  destruct Ha as [-> | ->]; simpl; lia.
Qed.

(** C10: an answer whose TTL is zero or absent takes no part in the
    minimum: the minimum, and the expiry, are those of the packet without
    such answers; and a "no error" packet in which every answer's TTL is
    zero or absent gets the not-cacheable value 0, the clock unread. *)
Theorem determineCacheExpiry_skips_no_ttl (p : Packet) (w : World) :
  let kept := filter (fun a => no_ttl a = false) (answers p) in
  fold_left minttl_step (answers p) (Z.shiftl 1 30)
    = fold_left minttl_step kept (Z.shiftl 1 30) ∧
  determineCacheExpiry p w = determineCacheExpiry (set_answers p kept) w ∧
  (rcodeNoError p = true ->
   Forall (fun a => ttl a = None ∨ ttl a = Some 0) (answers p) ->
   determineCacheExpiry p w = (Ok 0, w)).
Proof.
  intros kept. split; [apply minttl_step_no_ttl|]. split.
  - unfold determineCacheExpiry, rcodeNoError, hasAnswers. simpl.
    destruct (decide (p_rcode p = "NOERROR")); [|reflexivity]. simpl.
    rewrite (minttl_step_no_ttl (answers p)). fold kept.
    destruct (answers p) as [|a l] eqn:E; [reflexivity|].
    destruct kept as [|b k] eqn:Ek; [|reflexivity].
    reflexivity.
  - intros Hrc Hall. unfold determineCacheExpiry. rewrite Hrc. simpl.
    destruct (hasAnswers p); [|reflexivity]. simpl.
    rewrite minttl_step_all_no_ttl by done. reflexivity.
Qed.

(** ** TTL rewriting *)

Lemma updateTtl_loop_spec (outttl : Z) (l : list Answer) (updated : bool) :
  updateTtl_loop outttl l updated
  = (updated || existsb (ttl_changes outttl) l,
     map (rewriteAnswer outttl) l).
Proof.
  revert updated. induction l as [|a l IH]; intros updated; simpl.
  - now rewrite orb_false_r.
  - unfold rewriteAnswer, ttl_changes.
    destruct (optAnswer a); simpl.
    + now rewrite IH.
    + destruct (decide (ttl a = Some outttl)) as [E|E].
      * rewrite IH, bool_decide_eq_true_2 by done. reflexivity.
      * rewrite IH, bool_decide_eq_false_2 by done. simpl.
        now rewrite orb_true_r.
Qed.

Lemma rewriteAnswer_fields (outttl : Z) (a : Answer) :
  a_name (rewriteAnswer outttl a) = a_name a ∧
  a_type (rewriteAnswer outttl a) = a_type a ∧
  ttl (rewriteAnswer outttl a)
    = if optAnswer a then ttl a else Some outttl.
Proof.
  unfold rewriteAnswer. destruct (optAnswer a); [done|].
  destruct (decide (ttl a = Some outttl)); done.
Qed.

Lemma ttl_changes_false (outttl : Z) (a : Answer) :
  ttl_changes outttl a = false ↔ ttl (rewriteAnswer outttl a) = ttl a.
Proof.
  unfold ttl_changes, rewriteAnswer. destruct (optAnswer a); simpl; [done|].
  destruct (decide (ttl a = Some outttl)) as [E|E].
  - rewrite bool_decide_eq_true_2 by done. done.
  - rewrite bool_decide_eq_false_2 by done. simpl. split; [done|].
    intros H. now symmetry in H.
Qed.

Lemma ttl_changed_iff (outttl : Z) (l : list Answer) :
  existsb (ttl_changes outttl) l = true
  ↔ map ttl (map (rewriteAnswer outttl) l) ≠ map ttl l.
Proof.
  induction l as [|a l IH]; simpl; [split; [discriminate | done]|].
  destruct (ttl_changes outttl a) eqn:E; simpl.
  - split; [|done]. intros _ [= H _].
    apply ttl_changes_false in H. congruence.
  - apply ttl_changes_false in E. rewrite E, IH. split.
    + intros H [= H']. done.
    + intros H H'. apply H. now f_equal.
Qed.

Lemma rewriteAnswer_idem (outttl : Z) (a : Answer) :
  rewriteAnswer outttl (rewriteAnswer outttl a) = rewriteAnswer outttl a ∧
  ttl_changes outttl (rewriteAnswer outttl a) = false.
Proof.
  unfold rewriteAnswer at 2 3 4.
  destruct (optAnswer a) eqn:Eo.
  - unfold rewriteAnswer, ttl_changes. now rewrite Eo.
  - destruct (decide (ttl a = Some outttl)) as [E|E].
    + unfold rewriteAnswer, ttl_changes. rewrite Eo, decide_True by done.
      now rewrite bool_decide_eq_true_2.
    + unfold rewriteAnswer, ttl_changes.
      destruct (optAnswer (set_ttl a outttl)); [done|].
      rewrite decide_True by done. now rewrite bool_decide_eq_true_2.
Qed.

Lemma updateTtl_past (p : Packet) (e : Z) (w : World) :
  e < now w -> updateTtl p e w = (Ok (false, p), tick w).
Proof.
  intros H. unfold updateTtl, mbind, M_bind, Date_now.
  now rewrite (proj2 (Z.ltb_lt _ _) H).
Qed.

Lemma updateTtl_future (p : Packet) (e : Z) (w : World) :
  now w <= e ->
  let outttl := Z.max ((e - now w) / 1000) ttlGraceSec in
  updateTtl p e w
  = (Ok (existsb (ttl_changes outttl) (answers p),
         set_answers p (map (rewriteAnswer outttl) (answers p))), tick w).
Proof.
  intros H outttl. unfold updateTtl, mbind, M_bind, Date_now.
  rewrite (proj2 (Z.ltb_ge _ _) H). rewrite updateTtl_loop_spec.
  reflexivity.
Qed.

(** C8: with the expiry in the past [updateTtl] leaves the packet as it is
    and returns false.  Otherwise, with
    [outttl = max(floor((expiry - now) / 1000), 30)], every answer that is
    not an OPT pseudo-record gets the TTL [outttl], the OPT answers and all
    other fields stay as they are, and the flag returned is true exactly
    when the TTL of some record has changed. *)
Theorem updateTtl_spec (p : Packet) (e : Z) (w : World) :
  (e < now w -> updateTtl p e w = (Ok (false, p), tick w)) ∧
  (now w <= e ->
   let outttl := Z.max ((e - now w) / 1000) 30 in
   ∃ changed p',
     updateTtl p e w = (Ok (changed, p'), tick w) ∧
     p_id p' = p_id p ∧ p_rcode p' = p_rcode p ∧
     questions p' = questions p ∧
     Forall2 (fun a a' =>
                a_name a' = a_name a ∧ a_type a' = a_type a ∧
                ttl a' = if optAnswer a then ttl a else Some outttl)
             (answers p) (answers p') ∧
     (changed = true ↔ map ttl (answers p') ≠ map ttl (answers p))).
Proof.
  split; [apply updateTtl_past|].
  intros H outttl. eexists _, _. split; [now apply updateTtl_future|].
  simpl. repeat split; try done.
  - apply Forall2_fmap_r, Forall_Forall2_diag, Forall_forall.
    intros a _. apply rewriteAnswer_fields.
  - apply ttl_changed_iff.
  - apply ttl_changed_iff.
Qed.

(** C9: [updateTtl] is idempotent: a second call with the same expiry, at
    the same reading of the clock, leaves the packet (so its TTLs) as the
    first call made it, and reports no change. *)
Theorem updateTtl_idempotent (p : Packet) (e : Z) (w : World) :
  now (tick w) = now w ->
  ∃ changed p1,
    updateTtl p e w = (Ok (changed, p1), tick w) ∧
    updateTtl p1 e (tick w) = (Ok (false, p1), tick (tick w)).
Proof.
  intros Hnow. destruct (Z.lt_ge_cases e (now w)) as [H|H].
  - eexists _, _. split; [now apply updateTtl_past|].
    apply updateTtl_past. now rewrite Hnow.
  - eexists _, _. split; [now apply updateTtl_future|].
    rewrite updateTtl_future by now rewrite Hnow.
    rewrite Hnow. simpl. do 2 f_equal.
    set (out := Z.max ((e - now w) / 1000) ttlGraceSec).
    assert (Hl : ∀ l,
      existsb (ttl_changes out) (map (rewriteAnswer out) l) = false ∧
      map (rewriteAnswer out) (map (rewriteAnswer out) l)
        = map (rewriteAnswer out) l).
    { induction l as [|a l [IH1 IH2]]; [done|]. simpl.
      destruct (rewriteAnswer_idem out a) as [-> ->].
      now rewrite IH1, IH2. }
    destruct (Hl (answers p)) as [-> Hm]. unfold set_answers. simpl.
    now rewrite Hm.
Qed.

(** ** What the computations do to the world *)

Lemma same_stores_refl (w : World) : same_stores w w.
Proof. by repeat split. Qed.

Lemma same_stores_tick (w w' : World) :
  same_stores w w' -> same_stores w (tick w').
Proof. intros H. exact H. Qed.

Lemma same_stores_closed (w : World) : tick_closed (same_stores w).
Proof. intros w'. apply same_stores_tick. Qed.

Lemma preserves_ret {A} (P : World -> Prop) (a : A) : preserves P (mret a).
Proof. intros w H. exact H. Qed.

Lemma preserves_throw {A} (P : World -> Prop) (e : JsError) :
  preserves P (@throw A e).
Proof. intros w H. exact H. Qed.

Lemma preserves_lift {A} (P : World -> Prop) (r : outcome A) :
  preserves P (lift r).
Proof. intros w H. exact H. Qed.

Lemma preserves_bind {A B} (P : World -> Prop) (m : M A) (f : A -> M B) :
  preserves P m -> (∀ a, preserves P (f a)) -> preserves P (m ≫= f).
Proof.
  intros Hm Hf w Hw. unfold mbind, M_bind. specialize (Hm w Hw).
  destruct (m w) as [[a|e] w']; simpl in *; [now apply Hf | done].
Qed.

Lemma preserves_get {A} (P : World -> Prop) (f : World -> M A) :
  (∀ w, P w -> P (f w w).2) -> preserves P (get_world ≫= f).
Proof. intros H w Hw. unfold mbind, M_bind, get_world. now apply H. Qed.

Lemma preserves_Date_now (P : World -> Prop) :
  tick_closed P -> preserves P Date_now.
Proof. intros H w Hw. now apply H. Qed.

Lemma preserves_determineCacheExpiry (P : World -> Prop) (p : Packet) :
  tick_closed P -> preserves P (determineCacheExpiry p).
Proof.
  intros H. unfold determineCacheExpiry.
  repeat match goal with
         | |- preserves _ (if ?b then _ else _) => destruct b
         end; try apply preserves_ret.
  apply preserves_bind; [now apply preserves_Date_now|].
  intros t. apply preserves_ret.
Qed.

Lemma preserves_updateTtl (P : World -> Prop) (p : Packet) (e : Z) :
  tick_closed P -> preserves P (updateTtl p e).
Proof.
  intros H. unfold updateTtl.
  apply preserves_bind; [now apply preserves_Date_now|].
  intros t. destruct (e <? t); apply preserves_ret.
Qed.

Lemma preserves_makeCacheResponse (P : World -> Prop) (queryId : Z)
    (pkt : bytes) (expiry : option Z) :
  tick_closed P -> preserves P (makeCacheResponse queryId pkt expiry).
Proof.
  intros H. unfold makeCacheResponse. apply preserves_bind.
  { destruct expiry; [|apply preserves_ret].
    apply preserves_bind; [now apply preserves_Date_now|].
    intros t. apply preserves_ret. }
  intros [|]; [apply preserves_ret|].
  destruct (safeBox (Decode pkt)) as [| |decoded]; try apply preserves_ret.
  apply preserves_bind.
  { destruct expiry; [apply preserves_ret|].
    now apply preserves_determineCacheExpiry. }
  intros e. apply preserves_bind; [now apply preserves_updateTtl|].
  intros r1. destruct (safeBox _); apply preserves_ret.
Qed.

Lemma preserves_resolveFromLocalCache (P : World -> Prop) (queryId : Z)
    (key : string) :
  tick_closed P -> preserves P (resolveFromLocalCache queryId key).
Proof.
  intros H. unfold resolveFromLocalCache. apply preserves_get.
  intros w Hw. destruct (dnsResCache w !! key); [|done].
  now apply preserves_makeCacheResponse.
Qed.

Lemma preserves_resolveFromHttpCache (P : World -> Prop) (queryId : Z)
    (u key : string) :
  tick_closed P -> preserves P (resolveFromHttpCache queryId u key).
Proof.
  intros H. unfold resolveFromHttpCache. apply preserves_get.
  intros w Hw. destruct (httpCache w) as [cache|]; [|done].
  destruct (cache !! httpCacheKey u key) as [resp|]; [|done].
  destruct (e_metadata resp); [|done].
  now apply preserves_makeCacheResponse.
Qed.

(** *** Computations that never throw *)

Lemma determineCacheExpiry_total (p : Packet) (w : World) :
  ∃ z w', determineCacheExpiry p w = (Ok z, w').
Proof.
  unfold determineCacheExpiry.
  repeat match goal with
         | |- context [if ?b then _ else _] => destruct b
         end; by eexists _, _.
Qed.

Lemma updateTtl_total (p : Packet) (e : Z) (w : World) :
  ∃ r, updateTtl p e w = (Ok r, tick w).
Proof.
  unfold updateTtl, mbind, M_bind, Date_now.
  destruct (e <? now w); by eexists.
Qed.

Lemma makeCacheResponse_total (queryId : Z) (pkt : bytes)
    (expiry : option Z) (w : World) :
  ∃ r w', makeCacheResponse queryId pkt expiry w = (Ok r, w')
          ∧ same_stores w w'.
Proof.
  pose proof (preserves_makeCacheResponse (same_stores w) queryId pkt expiry
                (same_stores_closed w) w (same_stores_refl w)) as Hs.
  revert Hs. unfold makeCacheResponse.
  assert (Hstale : ∃ b w1,
    (match expiry with
     | None => mret false
     | Some e => t ← Date_now; mret (e <? t)
     end : M bool) w = (Ok b, w1)).
  { destruct expiry; by eexists _, _. }
  destruct Hstale as (b & w1 & Hstale).
  rewrite (bind_ok _ _ _ _ _ Hstale).
  destruct b; [by eexists _, _|].
  destruct (safeBox (Decode pkt)) as [| |decoded]; try by eexists _, _.
  assert (Hexp : ∃ e w2,
    (match expiry with
     | None => determineCacheExpiry decoded
     | Some e => mret e
     end : M Z) w1 = (Ok e, w2)).
  { destruct expiry; [by eexists _, _|apply determineCacheExpiry_total]. }
  destruct Hexp as (e & w2 & Hexp).
  rewrite (bind_ok _ _ _ _ _ Hexp).
  destruct (updateTtl_total decoded e w2) as [r1 Hr1].
  rewrite (bind_ok _ _ _ _ _ Hr1).
  destruct (safeBox _); by eexists _, _.
Qed.

Lemma cacheKey_not_empty (p : Packet) (k : string) :
  cacheKey p = Some k -> falsy_key (Some k) = false.
Proof.
  unfold cacheKey. destruct (questions p) as [|q [|]]; try done.
  intros [= <-]. simpl. rewrite decide_False; [done|].
  destruct (toLowerCase (trim (q_name q))); discriminate.
Qed.

(** ** Reading the caches *)

Lemma resolveRequest_miss (param : Param) (w w1 : World)
    (c : maybe CacheRes) :
  resolveFromCache param w = (Ok c, w1) -> falsy c = true ->
  resolveRequest param w = resolveRequest_upstream param w1.
Proof.
  intros Hc Hf. unfold resolveRequest, resolveRequest_upstream.
  rewrite (bind_ok _ _ _ _ _ Hc). rewrite Hf.
  unfold mbind, M_bind, mret, M_ret.
  destruct (upstreamQuery param w1) as [[c'|e] w2]; [|done].
  destruct (detached _ w2) as [[u|e] w3]; done.
Qed.

Lemma resolveFromCache_local_miss (param : Param) (key : string)
    (w w1 : World) (c : maybe CacheRes) :
  cacheKey (requestDecodedDnsPacket param) = Some key ->
  resolveFromLocalCache (p_id (requestDecodedDnsPacket param)) key w
    = (Ok c, w1) ->
  falsy c = true ->
  resolveFromCache param w = resolveFromCache_edge param key w1.
Proof.
  intros Hk Hl Hf. unfold resolveFromCache. rewrite Hk.
  rewrite (cacheKey_not_empty _ _ Hk).
  rewrite (bind_ok _ _ _ _ _ Hl). now rewrite Hf.
Qed.

Lemma makeCacheResponse_stale (queryId : Z) (pkt : bytes) (e : Z)
    (w : World) :
  e < now w ->
  makeCacheResponse queryId pkt (Some e) w = (Ok JFalse, tick w).
Proof.
  intros H. unfold makeCacheResponse, mbind, M_bind, Date_now, mret, M_ret.
  now rewrite (proj2 (Z.ltb_lt _ _) H).
Qed.

Lemma resolveFromLocalCache_absent (queryId : Z) (key : string)
    (w : World) :
  dnsResCache w !! key = None ->
  resolveFromLocalCache queryId key w = (Ok JFalse, w).
Proof.
  intros H. unfold resolveFromLocalCache, mbind, M_bind, get_world.
  now rewrite H.
Qed.

Lemma resolveFromLocalCache_present (queryId : Z) (key : string)
    (cres : CacheRes) (w : World) :
  dnsResCache w !! key = Some cres ->
  resolveFromLocalCache queryId key w
  = makeCacheResponse queryId (dnsPacket cres) (ttlEndTime cres) w.
Proof.
  intros H. unfold resolveFromLocalCache, mbind, M_bind, get_world.
  now rewrite H.
Qed.

Lemma resolveFromHttpCache_absent (queryId : Z) (u key : string)
    (w : World) :
  httpCache w = None ∨
  (∃ cache, httpCache w = Some cache ∧ cache !! httpCacheKey u key = None) ->
  resolveFromHttpCache queryId u key w = (Ok JFalse, w).
Proof.
  unfold resolveFromHttpCache, mbind, M_bind, get_world.
  intros [H | (cache & H & Hm)]; rewrite H; [done|]. now rewrite Hm.
Qed.

Lemma resolveFromHttpCache_present (queryId : Z) (u key : string)
    (cache : gmap string EdgeResponse) (resp : EdgeResponse)
    (md : Metadata) (w : World) :
  httpCache w = Some cache -> cache !! httpCacheKey u key = Some resp ->
  e_metadata resp = Some md ->
  resolveFromHttpCache queryId u key w
  = makeCacheResponse queryId (e_body resp) (md_ttlEndTime md) w.
Proof.
  intros H Hm Hmd. unfold resolveFromHttpCache, mbind, M_bind, get_world.
  now rewrite H, Hm, Hmd.
Qed.

Lemma resolveFromCache_edge_miss (param : Param) (key : string)
    (w w1 : World) (c : maybe CacheRes) :
  resolveFromHttpCache (p_id (requestDecodedDnsPacket param))
    (url (request param)) key w = (Ok c, w1) ->
  falsy c = true ->
  resolveFromCache_edge param key w = (Ok c, w1).
Proof.
  intros H Hf. unfold resolveFromCache_edge.
  rewrite (bind_ok _ _ _ _ _ H). now destruct c.
Qed.

Lemma resolveRequest_both_miss (param : Param) (key : string)
    (w0 w w1 : World) (c c' : maybe CacheRes) :
  cacheKey (requestDecodedDnsPacket param) = Some key ->
  resolveFromLocalCache (p_id (requestDecodedDnsPacket param)) key w0
    = (Ok c, w) ->
  falsy c = true ->
  resolveFromCache_edge param key w = (Ok c', w1) -> falsy c' = true ->
  resolveFromCache param w0 = (Ok c', w1) ∧
  resolveRequest param w0 = resolveRequest_upstream param w1.
Proof.
  intros Hk Hl Hf He Hf'.
  assert (Hc : resolveFromCache param w0 = (Ok c', w1)).
  { now rewrite (resolveFromCache_local_miss _ _ _ _ _ Hk Hl Hf). }
  split; [exact Hc|]. now apply (resolveRequest_miss _ _ _ c').
Qed.

(** C3: an entry whose stored expiry is before the reading of the clock is
    a miss.  [makeCacheResponse] returns [false], the value of a miss, and
    so do the local and the edge lookup, with no change but the reading of
    the clock.  After a stale local entry the lookup goes on with the edge
    tier, and when that gives nothing either, [resolveRequest] goes on with
    the upstream query.  After a stale edge entry nothing is promoted to the
    local cache, and, the local tier having given nothing,
    [resolveRequest] goes on with the upstream query. *)
Theorem stale_entry_is_miss :
  (∀ queryId pkt e w,
     e < now w ->
     makeCacheResponse queryId pkt (Some e) w = (Ok JFalse, tick w)) ∧
  (∀ param key cres e w,
     cacheKey (requestDecodedDnsPacket param) = Some key ->
     dnsResCache w !! key = Some cres -> ttlEndTime cres = Some e ->
     e < now w ->
     resolveFromLocalCache (p_id (requestDecodedDnsPacket param)) key w
       = (Ok JFalse, tick w) ∧
     resolveFromCache param w = resolveFromCache_edge param key (tick w) ∧
     (∀ c w1,
        resolveFromCache_edge param key (tick w) = (Ok c, w1) ->
        falsy c = true ->
        resolveFromCache param w = (Ok c, w1) ∧
        resolveRequest param w = resolveRequest_upstream param w1)) ∧
  (∀ param key cache resp md e w,
     cacheKey (requestDecodedDnsPacket param) = Some key ->
     httpCache w = Some cache ->
     cache !! httpCacheKey (url (request param)) key = Some resp ->
     e_metadata resp = Some md -> md_ttlEndTime md = Some e ->
     e < now w ->
     resolveFromHttpCache (p_id (requestDecodedDnsPacket param))
       (url (request param)) key w = (Ok JFalse, tick w) ∧
     resolveFromCache_edge param key w = (Ok JFalse, tick w) ∧
     (∀ w0 c,
        resolveFromLocalCache (p_id (requestDecodedDnsPacket param)) key w0
          = (Ok c, w) ->
        falsy c = true ->
        resolveFromCache param w0 = (Ok JFalse, tick w) ∧
        resolveRequest param w0 = resolveRequest_upstream param (tick w))).
Proof.
  split; [apply makeCacheResponse_stale|]. split.
  - intros param key cres e w Hk Hget He Hlt.
    assert (Hl : resolveFromLocalCache
                   (p_id (requestDecodedDnsPacket param)) key w
                 = (Ok JFalse, tick w)).
    { rewrite (resolveFromLocalCache_present _ _ _ _ Hget), He.
      now apply makeCacheResponse_stale. }
    split; [exact Hl|]. split.
    + now apply (resolveFromCache_local_miss _ _ _ _ JFalse).
    + intros c w1 He' Hf.
      now apply (resolveRequest_both_miss param key w (tick w) w1 JFalse c).
  - intros param key cache resp md e w Hk Hc Hget Hmd He Hlt.
    assert (Hh : resolveFromHttpCache
                   (p_id (requestDecodedDnsPacket param))
                   (url (request param)) key w = (Ok JFalse, tick w)).
    { rewrite (resolveFromHttpCache_present _ _ _ _ _ _ _ Hc Hget Hmd), He.
      now apply makeCacheResponse_stale. }
    assert (Hedge : resolveFromCache_edge param key w = (Ok JFalse, tick w)).
    { now apply resolveFromCache_edge_miss. }
    split; [exact Hh|]. split; [exact Hedge|].
    intros w0 c Hl Hf.
    now apply (resolveRequest_both_miss param key w0 w (tick w) c JFalse).
Qed.

(** ** Decode failures *)

Lemma makeCacheResponse_undecodable (queryId : Z) (pkt : bytes)
    (expiry : option Z) (err : JsError) (w : World) :
  Decode pkt = Throw err ->
  ∃ w1, same_stores w w1 ∧
        makeCacheResponse queryId pkt expiry w = (Ok JFalse, w1).
Proof.
  intros H. unfold makeCacheResponse, mbind, M_bind, Date_now, mret, M_ret.
  rewrite H. simpl. destruct expiry as [e|].
  - exists (tick w). split; [apply same_stores_tick, same_stores_refl|].
    now destruct (e <? now w).
  - exists w. split; [apply same_stores_refl | done].
Qed.

Lemma upstreamQuery_answer (param : Param) (up : UpResponse) (w : World) :
  resolveDnsUpstream (request param) (dnsResolverUrl param)
    (requestBodyBuffer param) = Ok (Some up) ->
  up_ok up = true -> validResponseSize (up_body up) = true ->
  upstreamQuery param w
  = makeCacheResponse (p_id (requestDecodedDnsPacket param)) (up_body up)
      None w.
Proof.
  intros Hup Hok Hsize. unfold upstreamQuery, mbind, M_bind, lift.
  now rewrite Hup, Hok, Hsize.
Qed.

(** C5: a decode failure on an entry read from the local or the edge
    cache makes the lookup return [false], the value of a miss, with every
    store as it was.  After the local tier the lookup goes on with the edge
    tier, and when that gives nothing either, [resolveRequest] goes on with
    the upstream query; after the edge tier nothing is promoted, and, the
    local tier having given nothing, [resolveRequest] goes on with the
    upstream query.  A decode failure on the answer of the upstream makes
    [resolveRequest] throw. *)
Theorem decode_failure_policy :
  (∀ param key cres err w,
     cacheKey (requestDecodedDnsPacket param) = Some key ->
     dnsResCache w !! key = Some cres ->
     Decode (dnsPacket cres) = Throw err ->
     ∃ w1, same_stores w w1 ∧
       resolveFromLocalCache (p_id (requestDecodedDnsPacket param)) key w
         = (Ok JFalse, w1) ∧
       resolveFromCache param w = resolveFromCache_edge param key w1 ∧
       (∀ c w2,
          resolveFromCache_edge param key w1 = (Ok c, w2) ->
          falsy c = true ->
          resolveFromCache param w = (Ok c, w2) ∧
          resolveRequest param w = resolveRequest_upstream param w2)) ∧
  (∀ param key cache resp md err w,
     cacheKey (requestDecodedDnsPacket param) = Some key ->
     httpCache w = Some cache ->
     cache !! httpCacheKey (url (request param)) key = Some resp ->
     e_metadata resp = Some md ->
     Decode (e_body resp) = Throw err ->
     ∃ w1, same_stores w w1 ∧
       resolveFromHttpCache (p_id (requestDecodedDnsPacket param))
         (url (request param)) key w = (Ok JFalse, w1) ∧
       resolveFromCache_edge param key w = (Ok JFalse, w1) ∧
       (∀ w0 c,
          resolveFromLocalCache (p_id (requestDecodedDnsPacket param)) key w0
            = (Ok c, w) ->
          falsy c = true ->
          resolveFromCache param w0 = (Ok JFalse, w1) ∧
          resolveRequest param w0 = resolveRequest_upstream param w1)) ∧
  (∀ param up err w c w1,
     resolveDnsUpstream (request param) (dnsResolverUrl param)
       (requestBodyBuffer param) = Ok (Some up) ->
     up_ok up = true -> validResponseSize (up_body up) = true ->
     Decode (up_body up) = Throw err ->
     resolveFromCache param w = (Ok c, w1) -> falsy c = true ->
     upstreamQuery param w1 = (Ok JFalse, w1) ∧
     resolveRequest param w
       = (Throw (Error "No answer from cache or upstream"), w1)).
Proof.
  split; [|split].
  - intros param key cres err w Hk Hget Hdec.
    destruct (makeCacheResponse_undecodable
                (p_id (requestDecodedDnsPacket param)) (dnsPacket cres)
                (ttlEndTime cres) err w Hdec) as (w1 & Hs & Hm).
    exists w1. split; [exact Hs|].
    assert (Hl : resolveFromLocalCache
                   (p_id (requestDecodedDnsPacket param)) key w
                 = (Ok JFalse, w1)).
    { now rewrite (resolveFromLocalCache_present _ _ _ _ Hget). }
    split; [exact Hl|]. split.
    + now apply (resolveFromCache_local_miss _ _ _ _ JFalse).
    + intros c w2 He Hf.
      now apply (resolveRequest_both_miss param key w w1 w2 JFalse c).
  - intros param key cache resp md err w Hk Hc Hget Hmd Hdec.
    destruct (makeCacheResponse_undecodable
                (p_id (requestDecodedDnsPacket param)) (e_body resp)
                (md_ttlEndTime md) err w Hdec) as (w1 & Hs & Hm).
    exists w1. split; [exact Hs|].
    assert (Hh : resolveFromHttpCache
                   (p_id (requestDecodedDnsPacket param))
                   (url (request param)) key w = (Ok JFalse, w1)).
    { now rewrite (resolveFromHttpCache_present _ _ _ _ _ _ _ Hc Hget Hmd). }
    assert (Hedge : resolveFromCache_edge param key w = (Ok JFalse, w1)).
    { now apply resolveFromCache_edge_miss. }
    split; [exact Hh|]. split; [exact Hedge|].
    intros w0 c Hl Hf.
    now apply (resolveRequest_both_miss param key w0 w w1 c JFalse).
  - intros param up err w c w1 Hup Hok Hsize Hdec Hc Hf.
    assert (Hq : upstreamQuery param w1 = (Ok JFalse, w1)).
    { rewrite (upstreamQuery_answer _ _ _ Hup Hok Hsize).
      unfold makeCacheResponse, mbind, M_bind, mret, M_ret.
      now rewrite Hdec. }
    split; [exact Hq|].
    rewrite (resolveRequest_miss _ _ _ _ Hc Hf).
    unfold resolveRequest_upstream.
    rewrite (bind_ok _ _ _ _ _ Hq). reflexivity.
Qed.

(** ** Writing the caches *)

Lemma call_this_httpCacheMetadata {A} (body : outcome A) :
  call_this "httpCacheMetadata" body
  = Throw (TypeError "this.httpCacheMetadata is not a function").
Proof.
  unfold call_this. destruct (decide _) as [H|_]; [|reflexivity].
  exfalso. unfold DNSResolver_members in H.
  repeat (apply elem_of_cons in H as [H|H]; [discriminate|]).
  now apply elem_of_nil in H.
Qed.

Lemma httpCacheMetadata_not_member :
  "httpCacheMetadata"%string ∈ module_functions ∧
  "httpCacheMetadata"%string ∉ DNSResolver_members.
Proof.
  split; [by left|]. intros H. unfold DNSResolver_members in H.
  repeat (apply elem_of_cons in H as [H|H]; [discriminate|]).
  now apply elem_of_nil in H.
Qed.

Lemma call_this_ok {A} (name : string) (body : outcome A) (a : A) :
  call_this name body = Ok a -> body = Ok a.
Proof. unfold call_this. now destruct (decide _). Qed.

Lemma httpCacheHeaders_metadata (cres : CacheRes)
    (blFilter : string -> BlocklistInfo) (value : EdgeResponse) :
  httpCacheHeaders cres blFilter = Ok value ->
  ∃ md, e_metadata value = Some md ∧ md_ttlEndTime md = ttlEndTime cres.
Proof.
  unfold httpCacheHeaders.
  destruct (call_this _ _) as [md|e] eqn:E; [|discriminate].
  intros [= <-]. exists md. split; [reflexivity|].
  apply call_this_ok in E. unfold httpCacheMetadata in E.
  destruct (decodedDnsPacket cres) as [d|]; [|discriminate].
  destruct (questions d) as [|q [|]]; try discriminate.
  now injection E as <-.
Qed.

Lemma updateLocalCacheIfNeeded_no_expiry (k : option string)
    (v : maybe CacheRes) (w : World) :
  (∀ c, v = JObj c -> falsy_num (ttlEndTime c) = true) ->
  updateLocalCacheIfNeeded k v w = (Ok tt, w).
Proof.
  intros H. unfold updateLocalCacheIfNeeded.
  destruct k as [k'|], v as [| |c]; try done.
  rewrite (H c eq_refl). now destruct (falsy_key _).
Qed.

Lemma updateHttpCacheIfNeeded_no_expiry (param : Param) (k : option string)
    (v : maybe CacheRes) (w : World) :
  (∀ c, v = JObj c -> falsy_num (ttlEndTime c) = true) ->
  updateHttpCacheIfNeeded param k v w = (Ok tt, w).
Proof.
  intros H. unfold updateHttpCacheIfNeeded, mbind, M_bind, get_world.
  destruct (httpCache w); [|done].
  destruct k as [k'|], v as [| |c]; try done.
  rewrite (H c eq_refl). now destruct (falsy_key _).
Qed.

Lemma updateLocalCacheIfNeeded_cases (k : option string)
    (v : maybe CacheRes) (w : World) :
  updateLocalCacheIfNeeded k v w = (Ok tt, w) ∨
  ∃ key c t,
    k = Some key ∧ v = JObj c ∧ ttlEndTime c = Some t ∧ t ≠ 0 ∧
    updateLocalCacheIfNeeded k v w
    = (Ok tt,
       set_dnsResCache
         (<[key := {| dnsPacket := dnsPacket c; decodedDnsPacket := None;
                      ttlEndTime := Some t |}]> (dnsResCache w)) w).
Proof.
  unfold updateLocalCacheIfNeeded.
  destruct k as [key|], v as [| |c]; try (now left).
  destruct (falsy_key (Some key)); [now left|].
  destruct (ttlEndTime c) as [t|] eqn:Et; [|now left]. simpl.
  destruct (Z.eqb_spec t 0) as [->|Hne]; [now left|].
  right. by exists key, c, t.
Qed.

Lemma caches_clean_closed : tick_closed caches_clean.
Proof. intros w H. exact H. Qed.

Lemma preserves_updateLocalCacheIfNeeded (k : option string)
    (v : maybe CacheRes) :
  preserves caches_clean (updateLocalCacheIfNeeded k v).
Proof.
  intros w [Hl Hd].
  destruct (updateLocalCacheIfNeeded_cases k v w)
    as [-> | (key & c & t & _ & _ & _ & Ht & ->)]; [done|].
  split; [|exact Hd]. simpl. intros k' c' Hget.
  destruct (decide (key = k')) as [<-|Hne].
  - rewrite lookup_insert_eq in Hget. injection Hget as <-.
    split; [reflexivity|]. simpl. now apply Z.eqb_neq.
  - rewrite lookup_insert_ne in Hget by done. now apply (Hl k').
Qed.

Lemma preserves_updateHttpCacheIfNeeded (param : Param)
    (k : option string) (v : maybe CacheRes) :
  preserves caches_clean (updateHttpCacheIfNeeded param k v).
Proof.
  intros w [Hl Hd]. unfold updateHttpCacheIfNeeded, mbind, M_bind, get_world.
  destruct (httpCache w); [|done].
  destruct k as [key|], v as [| |c]; try done.
  destruct (falsy_key (Some key)); [done|].
  destruct (falsy_num (ttlEndTime c)) eqn:Et; [done|].
  unfold lift. destruct (httpCacheHeaders c (blocklistFilter param))
    as [value|e] eqn:Eh; [|done].
  simpl. split; [exact Hl|]. apply Forall_app. split; [exact Hd|].
  apply Forall_singleton.
  destruct (httpCacheHeaders_metadata _ _ _ Eh) as (md & Hmd & Httl).
  exists md. split; [exact Hmd|]. now rewrite Httl.
Qed.

Lemma preserves_detached (P : World -> Prop) (m : M unit) :
  (∀ e w, P w -> P (add_rejection e w)) ->
  preserves P m -> preserves P (detached m).
Proof.
  intros Hr Hm w Hw. unfold detached. specialize (Hm w Hw).
  destruct (m w) as [[u|e] w']; simpl in *; [done|now apply Hr].
Qed.

Lemma preserves_updateCachesIfNeeded (param : Param) (v : maybe CacheRes) :
  preserves caches_clean (updateCachesIfNeeded param v).
Proof.
  unfold updateCachesIfNeeded. destruct (falsy v); [apply preserves_ret|].
  destruct (falsy_key _); [apply preserves_ret|].
  apply preserves_bind; [apply preserves_updateLocalCacheIfNeeded|].
  intros _. apply preserves_updateHttpCacheIfNeeded.
Qed.

Lemma preserves_upstreamQuery (P : World -> Prop) (param : Param) :
  tick_closed P -> preserves P (upstreamQuery param).
Proof.
  intros H. unfold upstreamQuery.
  apply preserves_bind; [apply preserves_lift|].
  intros [up|]; [|apply preserves_throw].
  destruct (negb (up_ok up)); [apply preserves_throw|].
  destruct (negb (validResponseSize _)); [apply preserves_throw|].
  now apply preserves_makeCacheResponse.
Qed.

Lemma preserves_resolveFromCache (param : Param) :
  preserves caches_clean (resolveFromCache param).
Proof.
  unfold resolveFromCache.
  destruct (cacheKey _) as [k|]; [|apply preserves_ret].
  destruct (falsy_key _); [apply preserves_ret|].
  apply preserves_bind.
  { apply preserves_resolveFromLocalCache, caches_clean_closed. }
  intros c. destruct (falsy c); [|apply preserves_ret].
  apply preserves_bind.
  { apply preserves_resolveFromHttpCache, caches_clean_closed. }
  intros c'. apply preserves_bind;
    [apply preserves_updateLocalCacheIfNeeded|].
  intros _. apply preserves_ret.
Qed.

Lemma preserves_resolveRequest (param : Param) :
  preserves caches_clean (resolveRequest param).
Proof.
  unfold resolveRequest.
  apply preserves_bind; [apply preserves_resolveFromCache|].
  intros c. apply preserves_bind.
  { destruct (falsy c); [|apply preserves_ret].
    apply preserves_bind.
    { apply preserves_upstreamQuery, caches_clean_closed. }
    intros c'. apply preserves_bind; [|intros _; apply preserves_ret].
    apply preserves_detached; [|apply preserves_updateCachesIfNeeded].
    intros e w H. exact H. }
  intros [| |c']; first [apply preserves_throw | apply preserves_ret].
Qed.

(** C4: with an expiry that is zero or absent neither
    [updateLocalCacheIfNeeded] nor [updateHttpCacheIfNeeded] changes
    anything; what [updateLocalCacheIfNeeded] does store is the object of
    the two properties [dnsPacket] and [ttlEndTime], without the decoded
    packet, under a non-zero expiry; and a whole resolution keeps the
    caches clean: every entry of the local cache has a non-zero expiry and
    no decoded packet, every put handed to the edge cache has a non-zero
    expiry. *)
Theorem no_write_without_expiry :
  (∀ param k v w,
     (∀ c, v = JObj c -> ttlEndTime c = None ∨ ttlEndTime c = Some 0) ->
     updateLocalCacheIfNeeded k v w = (Ok tt, w) ∧
     updateHttpCacheIfNeeded param k v w = (Ok tt, w)) ∧
  (∀ k v w,
     updateLocalCacheIfNeeded k v w = (Ok tt, w) ∨
     ∃ key c t,
       k = Some key ∧ v = JObj c ∧ ttlEndTime c = Some t ∧ t ≠ 0 ∧
       updateLocalCacheIfNeeded k v w
       = (Ok tt,
          set_dnsResCache
            (<[key := {| dnsPacket := dnsPacket c; decodedDnsPacket := None;
                         ttlEndTime := Some t |}]> (dnsResCache w)) w)) ∧
  (∀ param w, caches_clean w -> caches_clean (resolveRequest param w).2).
Proof.
  split; [|split].
  - intros param k v w H.
    assert (H' : ∀ c, v = JObj c -> falsy_num (ttlEndTime c) = true).
    { intros c Hc. now destruct (H c Hc) as [-> | ->]. }
    split; [now apply updateLocalCacheIfNeeded_no_expiry|].
    now apply updateHttpCacheIfNeeded_no_expiry.
  - apply updateLocalCacheIfNeeded_cases.
  - intros param. apply preserves_resolveRequest.
Qed.

(** The edge write never gets as far as the put: building the headers
    calls [this.httpCacheMetadata], which is not a member of the object. *)
Lemma updateHttpCacheIfNeeded_throws (param : Param) (k : string)
    (cres : CacheRes) (cache : gmap string EdgeResponse) (w : World) :
  httpCache w = Some cache -> k ≠ "" ->
  falsy_num (ttlEndTime cres) = false ->
  updateHttpCacheIfNeeded param (Some k) (JObj cres) w
  = (Throw (TypeError "this.httpCacheMetadata is not a function"), w).
Proof.
  intros Hc Hk Ht.
  unfold updateHttpCacheIfNeeded, mbind, M_bind, get_world, lift,
    httpCacheHeaders.
  rewrite Hc, call_this_httpCacheMetadata. cbn [falsy_key].
  rewrite decide_False by done. now rewrite Ht.
Qed.

(** ** Undersized upstream answers *)

Section Undersized.

(** The least size of a valid DNS message, which [validResponseSize]
    enforces. *)
Variable minDNSPacketSize : Z.
Hypothesis validResponseSize_min :
  ∀ b : bytes,
    Z.of_nat (length b) < minDNSPacketSize -> validResponseSize b = false.

Lemma resolveFromCache_falsy (param : Param) (w w1 : World)
    (c : maybe CacheRes) :
  resolveFromCache param w = (Ok c, w1) -> falsy c = true ->
  same_stores w w1.
Proof.
  unfold resolveFromCache.
  destruct (cacheKey _) as [k|];
    [|intros [= _ <-] _; apply same_stores_refl].
  destruct (falsy_key _); [intros [= _ <-] _; apply same_stores_refl|].
  pose proof (preserves_resolveFromLocalCache (same_stores w)
                (p_id (requestDecodedDnsPacket param)) k
                (same_stores_closed w) w (same_stores_refl w)) as Hl.
  unfold mbind at 1, M_bind at 1.
  destruct (resolveFromLocalCache _ k w) as [[c1|e1] w2]; [|done].
  simpl in Hl. destruct (falsy c1) eqn:Ef1.
  - pose proof (preserves_resolveFromHttpCache (same_stores w)
                  (p_id (requestDecodedDnsPacket param))
                  (url (request param)) k
                  (same_stores_closed w) w2 Hl) as Hh.
    unfold mbind at 1, M_bind at 1.
    destruct (resolveFromHttpCache _ _ k w2) as [[c2|e2] w3]; [|done].
    simpl in Hh. unfold mbind, M_bind.
    destruct (updateLocalCacheIfNeeded (Some k) c2 w3)
      as [[u|e3] w4] eqn:Eu; [|done].
    intros [= <- <-] Hf.
    rewrite updateLocalCacheIfNeeded_no_expiry in Eu
      by (intros c' ->; simpl in Hf; discriminate).
    injection Eu as _ <-. exact Hh.
  - intros [= <- <-] Hf. congruence.
Qed.


End Undersized.

(** * Further properties of the resolver *)

(** ** Query id and expiry *)

(** X1: [updateQueryId] leaves the packet as it is when the query id is 0
    or is the packet's id already; otherwise it sets the id, and nothing
    else.  The flag is true exactly when the packet has changed, and a second
    call with the same id never changes anything. *)
Theorem updateQueryId_spec (p : Packet) (queryId : Z) :
  let r := updateQueryId p queryId in
  p_id r.2 = (if queryId =? 0 then p_id p else queryId) ∧
  p_rcode r.2 = p_rcode p ∧ questions r.2 = questions p ∧
  answers r.2 = answers p ∧
  (r.1 = true ↔ r.2 ≠ p) ∧
  (r.1 = true ↔ queryId ≠ 0 ∧ queryId ≠ p_id p) ∧
  updateQueryId r.2 queryId = (false, r.2).
Proof.
  unfold updateQueryId.
  destruct (Z.eqb_spec queryId 0) as [H0|H0]; simpl.
  - repeat split; try done. intros [? _]. done.
  - destruct (Z.eqb_spec queryId (p_id p)) as [Hid|Hid]; simpl.
    + repeat split; try done.
      * intros [_ ?]. done.
      * now rewrite (proj2 (Z.eqb_eq _ _) Hid).
    + rewrite Z.eqb_refl. repeat split; try done.
      intros _ H. apply Hid. now rewrite <- H.
Qed.

(** X2: the expiry of a new entry is either the not-cacheable value 0, the
    clock unread, or lies at least the grace period of 30 s and less than
    [(1 << 30) + 30] s after the one reading of the clock. *)
Theorem determineCacheExpiry_bounds (p : Packet) (w : World) :
  determineCacheExpiry p w = (Ok 0, w) ∨
  ∃ z, determineCacheExpiry p w = (Ok z, tick w) ∧
       now w + 30000 <= z < now w + (Z.shiftl 1 30 + 30) * 1000.
Proof.
  destruct (rcodeNoError p) eqn:Hrc;
    [|left; apply determineCacheExpiry_not_cacheable; now left].
  destruct (answers p) as [|a l] eqn:Hans;
    [left; apply determineCacheExpiry_not_cacheable; now right|].
  rewrite determineCacheExpiry_counted by (done || now rewrite Hans).
  rewrite Hans. destruct (countedTTLs (a :: l)) as [|t ts] eqn:Ec;
    [now left|].
  right. eexists. split; [reflexivity|].
  assert (Ht : t < Z.shiftl 1 30).
  { apply (counted_below (a :: l)). rewrite Ec. left. }
  pose proof (fold_min_le ts t) as Hle. rewrite shiftl_1_30 in *.
  unfold ttlGraceSec. lia.
Qed.

(** ** White space and the cache key *)

(** X3: the cache key does not depend on the white space around the name:
    two one-question packets with the same record type, the name of one
    being the name of the other with white space (of ECMAScript, so also
    U+00A0 or U+2003) before and after it, have the same key. *)
Theorem cacheKey_ignores_whitespace (p p' : Packet) (q q' : Question)
    (pre post : string) :
  questions p = [q] -> questions p' = [q'] ->
  q_name q' = pre +:+ q_name q +:+ post ->
  whitespace_only pre -> whitespace_only post ->
  q_type q' = q_type q ->
  cacheKey p' = cacheKey p.
Proof.
  intros Hq Hq' Hname Hpre Hpost Htype. unfold cacheKey.
  rewrite Hq, Hq', Htype, Hname.
  now rewrite trim_ignores_whitespace.
Qed.

(** ** Cache responses *)

Lemma determineCacheExpiry_ticks (p : Packet) (w : World) :
  ∃ z, determineCacheExpiry p w = (Ok z, w) ∨
       determineCacheExpiry p w = (Ok z, tick w).
Proof.
  unfold determineCacheExpiry.
  repeat match goal with
         | |- context [if ?b then _ else _] => destruct b
         end; eexists; first [by left | by right].
Qed.

Lemma rewriteAnswer_unchanged (outttl : Z) (l : list Answer) :
  existsb (ttl_changes outttl) l = false ->
  map (rewriteAnswer outttl) l = l.
Proof.
  induction l as [|a l IH]; [reflexivity|]. simpl.
  intros [Ha Hl]%orb_false_elim. rewrite IH by done. f_equal.
  unfold ttl_changes in Ha. unfold rewriteAnswer.
  destruct (optAnswer a); [reflexivity|]. simpl in Ha.
  destruct (decide (ttl a = Some outttl)) as [E|E]; [reflexivity|].
  now rewrite bool_decide_eq_false_2 in Ha.
Qed.

Lemma updateTtl_result (p : Packet) (e : Z) (w : World) :
  ∃ changed p',
    updateTtl p e w = (Ok (changed, p'), tick w) ∧
    p_id p' = p_id p ∧ p_rcode p' = p_rcode p ∧
    questions p' = questions p ∧
    length (answers p') = length (answers p) ∧
    (changed = false -> p' = p) ∧
    (changed = true -> map ttl (answers p') ≠ map ttl (answers p)).
Proof.
  destruct (Z.lt_ge_cases e (now w)) as [H|H].
  - exists false, p. by rewrite updateTtl_past.
  - eexists _, _. split; [now apply updateTtl_future|]. simpl.
    rewrite length_map. repeat split; try done.
    + intros Hch. rewrite rewriteAnswer_unchanged by done. now destruct p.
    + apply ttl_changed_iff.
Qed.

(** X4: [makeCacheResponse] and the local lookup never throw, whatever the
    parser does with the bytes, and they change no store: they read the
    clock, at most three times. *)
Theorem makeCacheResponse_never_throws (queryId : Z) (pkt : bytes)
    (expiry : option Z) (key : string) (w : World) :
  (∃ r w', makeCacheResponse queryId pkt expiry w = (Ok r, w') ∧
           same_stores w w' ∧ (ticks w <= ticks w' <= ticks w + 3)%nat) ∧
  (∃ r w', resolveFromLocalCache queryId key w = (Ok r, w') ∧
           same_stores w w' ∧ (ticks w <= ticks w' <= ticks w + 3)%nat).
Proof.
  assert (Hm : ∀ pkt expiry,
    ∃ r w', makeCacheResponse queryId pkt expiry w = (Ok r, w') ∧
            same_stores w w' ∧ (ticks w <= ticks w' <= ticks w + 3)%nat).
  { clear pkt expiry. intros pkt expiry.
    set (P := fun w' : World =>
                same_stores w w' ∧ (ticks w <= ticks w')%nat).
    assert (HP : tick_closed P).
    { intros w' [Hs Ht]. split; [exact Hs|]. simpl. lia. }
    unfold makeCacheResponse, mbind, M_bind, mret, M_ret, Date_now.
    destruct expiry as [e|].
    - destruct (e <? now w).
      { eexists _, _. split; [reflexivity|].
        split; [apply same_stores_tick, same_stores_refl|]. simpl. lia. }
      destruct (safeBox (Decode pkt)) as [| |d];
        try (eexists _, _; split; [reflexivity|];
             split; [apply same_stores_tick, same_stores_refl|]; simpl; lia).
      destruct (updateTtl_total d e (tick w)) as [r1 ->].
      destruct (safeBox _);
        (eexists _, _; split; [reflexivity|];
         split; [apply same_stores_tick, same_stores_tick, same_stores_refl|];
         simpl; lia).
    - destruct (safeBox (Decode pkt)) as [| |d];
        try (eexists _, _; split; [reflexivity|];
             split; [apply same_stores_refl|]; simpl; lia).
      pose proof (preserves_determineCacheExpiry P d HP w
                    (conj (same_stores_refl w) (le_n _))) as Hd.
      assert (Hd2 : (ticks (determineCacheExpiry d w).2 <= ticks w + 1)%nat).
      { destruct (determineCacheExpiry_ticks d w)
          as (z & [-> | ->]); simpl; lia. }
      destruct (determineCacheExpiry_total d w) as (z & w1 & Hz).
      rewrite Hz in *. simpl in Hd, Hd2. destruct Hd as [Hs Ht].
      destruct (updateTtl_total d z w1) as [r1 ->].
      destruct (safeBox _);
        (eexists _, _; split; [reflexivity|];
         split; [now apply same_stores_tick|]; simpl; lia). }
  split; [apply Hm|].
  unfold resolveFromLocalCache, mbind, M_bind, get_world.
  destruct (dnsResCache w !! key) as [cres|]; [apply Hm|].
  eexists _, _. split; [reflexivity|]. split; [apply same_stores_refl|lia].
Qed.

Lemma updateQueryId_fields (p : Packet) (queryId : Z) :
  p_id (updateQueryId p queryId).2
    = (if queryId =? 0 then p_id p else queryId) ∧
  p_rcode (updateQueryId p queryId).2 = p_rcode p ∧
  questions (updateQueryId p queryId).2 = questions p ∧
  answers (updateQueryId p queryId).2 = answers p ∧
  ((updateQueryId p queryId).1 = false -> (updateQueryId p queryId).2 = p) ∧
  ((updateQueryId p queryId).1 = true ->
   p_id (updateQueryId p queryId).2 ≠ p_id p).
Proof.
  unfold updateQueryId. destruct (Z.eqb_spec queryId 0); [done|].
  destruct (Z.eqb_spec queryId (p_id p)); simpl; repeat split; done.
Qed.

(** The steps of [makeCacheResponse] once the packet is decoded and the
    expiry known. *)
Lemma makeCacheResponse_tail (queryId : Z) (pkt : bytes) (d0 : Packet)
    (e : Z) (w1 w' : World) (c : CacheRes) :
  (r1 ← updateTtl d0 e;
   let r2 := updateQueryId r1.2 queryId in
   let reencode := r2.1 || r1.1 in
   let decodedDnsPacket := r2.2 in
   match safeBox (if reencode then Encode decodedDnsPacket else Ok pkt) with
   | JNull | JFalse => mret JFalse
   | JObj updatedDnsPacket =>
       mret (JObj {| dnsPacket := updatedDnsPacket;
                     decodedDnsPacket := Some decodedDnsPacket;
                     ttlEndTime := Some e |})
   end) w1 = (Ok (JObj c), w') ->
  ∃ d,
    decodedDnsPacket c = Some d ∧ ttlEndTime c = Some e ∧
    p_id d = (if queryId =? 0 then p_id d0 else queryId) ∧
    p_rcode d = p_rcode d0 ∧ questions d = questions d0 ∧
    length (answers d) = length (answers d0) ∧
    (d = d0 -> dnsPacket c = pkt) ∧
    (d ≠ d0 -> Encode d = Ok (dnsPacket c)).
Proof.
  destruct (updateTtl_result d0 e w1)
    as (ch & p' & Hu & Hid & Hrc & Hq & Hlen & Hsame & Hdiff).
  rewrite (bind_ok _ _ _ _ _ Hu). cbn [fst snd].
  destruct (updateQueryId_fields p' queryId)
    as (Fid & Frc & Fq & Fa & Fsame & Fdiff).
  destruct ((updateQueryId p' queryId).1 || ch) eqn:Hre.
  - destruct (Encode (updateQueryId p' queryId).2) as [b|err] eqn:He;
      [|discriminate].
    intros [= <- _]. eexists. simpl.
    rewrite Fid, Frc, Fq, Fa, Hid, Hrc, Hq, Hlen. repeat split; try done.
    intros Hd. exfalso. apply orb_true_iff in Hre as [Hr2|Hch].
    + apply (Fdiff Hr2). now rewrite Hd.
    + apply (Hdiff Hch). now rewrite <- Fa, Hd.
  - apply orb_false_elim in Hre as [Hr2 Hch].
    intros [= <- _]. eexists. simpl.
    rewrite Fid, Frc, Fq, Fa, Hid, Hrc, Hq, Hlen. repeat split; try done.
    intros Hd. exfalso. apply Hd. now rewrite Fsame, Hsame.
Qed.

(** X5: a cache response that [makeCacheResponse] returns is consistent:
    its decoded packet is the decoded input with the TTLs and the id
    rewritten (the id is the query id unless that is 0); its bytes are the
    input bytes when the rewriting left the packet as it was, and the
    encoding of the decoded packet when it changed it; and an expiry handed
    in is handed back unchanged and was not before the reading of the
    clock. *)
Theorem makeCacheResponse_consistent (queryId : Z) (pkt : bytes)
    (expiry : option Z) (w w' : World) (c : CacheRes) :
  makeCacheResponse queryId pkt expiry w = (Ok (JObj c), w') ->
  ∃ d0 d e,
    Decode pkt = Ok d0 ∧ decodedDnsPacket c = Some d ∧
    ttlEndTime c = Some e ∧
    (∀ e0, expiry = Some e0 -> e = e0 ∧ now w <= e0) ∧
    p_id d = (if queryId =? 0 then p_id d0 else queryId) ∧
    p_rcode d = p_rcode d0 ∧ questions d = questions d0 ∧
    length (answers d) = length (answers d0) ∧
    (d = d0 -> dnsPacket c = pkt) ∧
    (d ≠ d0 -> Encode d = Ok (dnsPacket c)).
Proof.
  unfold makeCacheResponse. destruct expiry as [e0|].
  - assert (Hstale : (t ← Date_now; mret (e0 <? t) : M bool) w
                     = (Ok (e0 <? now w), tick w)) by reflexivity.
    rewrite (bind_ok _ _ _ _ _ Hstale).
    destruct (e0 <? now w) eqn:Hst; [unfold mret, M_ret; discriminate|].
    destruct (Decode pkt) as [d0|err] eqn:Hdec;
      [|unfold mret, M_ret; discriminate].
    cbn [safeBox].
    assert (Hexp : (mret e0 : M Z) (tick w) = (Ok e0, tick w))
      by reflexivity.
    rewrite (bind_ok _ _ _ _ _ Hexp).
    intros H. apply makeCacheResponse_tail in H as (d & H).
    exists d0, d, e0. split; [reflexivity|].
    destruct H as (H1 & H2 & H3). split; [exact H1|]. split; [exact H2|].
    split; [|exact H3]. intros e1 [= <-]. split; [reflexivity|].
    now apply Z.ltb_ge.
  - assert (Hstale : (mret false : M bool) w = (Ok false, w))
      by reflexivity.
    rewrite (bind_ok _ _ _ _ _ Hstale).
    destruct (Decode pkt) as [d0|err] eqn:Hdec;
      [|unfold mret, M_ret; discriminate].
    cbn [safeBox]. destruct (determineCacheExpiry_total d0 w)
      as (z & w1 & Hz).
    rewrite (bind_ok _ _ _ _ _ Hz).
    intros H. apply makeCacheResponse_tail in H as (d & H).
    exists d0, d, z. split; [reflexivity|].
    destruct H as (H1 & H2 & H3). split; [exact H1|]. split; [exact H2|].
    split; [|exact H3]. intros e1 [=].
Qed.

(** X6: the TTL on a hit counts down.  When the stored expiry is not
    before the two readings of the clock and the bytes decode,
    [makeCacheResponse] reads the clock twice and rewrites the packet: the
    TTL of every answer that is not an OPT pseudo-record becomes the seconds
    left, or 30 if fewer are left, and the id becomes the query id unless
    that is 0.  If this leaves the packet as it was, the entry is returned
    with the input bytes; if it changes the packet, the entry is returned
    with the encoding of the rewritten packet, and the miss value exactly
    when the encoder fails on it.  The expiry of the entry is the stored
    one. *)
Theorem cache_hit_counts_down (queryId : Z) (pkt : bytes) (e : Z)
    (d0 : Packet) (w : World) :
  Decode pkt = Ok d0 -> now w <= e -> now (tick w) <= e ->
  let left := Z.max ((e - now (tick w)) / 1000) 30 in
  ∃ d,
    p_id d = (if queryId =? 0 then p_id d0 else queryId) ∧
    p_rcode d = p_rcode d0 ∧ questions d = questions d0 ∧
    Forall2 (fun a a' =>
               a_name a' = a_name a ∧ a_type a' = a_type a ∧
               ttl a' = if optAnswer a then ttl a else Some left)
            (answers d0) (answers d) ∧
    (d = d0 ->
     makeCacheResponse queryId pkt (Some e) w
     = (Ok (JObj {| dnsPacket := pkt; decodedDnsPacket := Some d;
                    ttlEndTime := Some e |}), tick (tick w))) ∧
    (d ≠ d0 ->
     makeCacheResponse queryId pkt (Some e) w
     = (match Encode d with
        | Ok b => Ok (JObj {| dnsPacket := b; decodedDnsPacket := Some d;
                              ttlEndTime := Some e |})
        | Throw _ => Ok JFalse
        end, tick (tick w))).
Proof.
  intros Hdec H1 H2 left.
  set (p1 := set_answers d0
               (map (rewriteAnswer
                       (Z.max ((e - now (tick w)) / 1000) ttlGraceSec))
                  (answers d0))).
  set (ch := existsb (ttl_changes
                        (Z.max ((e - now (tick w)) / 1000) ttlGraceSec))
               (answers d0)).
  destruct (updateQueryId_fields p1 queryId)
    as (Fid & Frc & Fq & Fa & Fsame & Fdiff).
  assert (Hrun : makeCacheResponse queryId pkt (Some e) w
    = (match safeBox (if (updateQueryId p1 queryId).1 || ch
                      then Encode (updateQueryId p1 queryId).2
                      else Ok pkt) with
       | JObj b => Ok (JObj {| dnsPacket := b;
                              decodedDnsPacket :=
                                Some (updateQueryId p1 queryId).2;
                              ttlEndTime := Some e |})
       | _ => Ok JFalse
       end, tick (tick w))).
  { unfold makeCacheResponse, mbind, M_bind, mret, M_ret, Date_now.
    rewrite (proj2 (Z.ltb_ge _ _) H1), Hdec. cbn [safeBox].
    rewrite (updateTtl_future d0 e (tick w) H2). cbn [fst snd].
    fold p1 ch. now destruct (safeBox _). }
  assert (Hflags : (updateQueryId p1 queryId).1 || ch = false
                   ↔ (updateQueryId p1 queryId).2 = d0).
  { split.
    - intros [Hr2 Hch]%orb_false_elim. rewrite (Fsame Hr2). unfold p1.
      unfold ch in Hch. rewrite rewriteAnswer_unchanged by exact Hch.
      now destruct d0.
    - intros Hd. apply not_true_is_false.
      intros [Hr2|Hch]%orb_true_iff.
      + apply (Fdiff Hr2). now rewrite Hd.
      + unfold ch in Hch. apply ttl_changed_iff in Hch. apply Hch.
        change (map (rewriteAnswer
                       (Z.max ((e - now (tick w)) / 1000) ttlGraceSec))
                  (answers d0)) with (answers p1).
        now rewrite <- Fa, Hd. }
  exists (updateQueryId p1 queryId).2.
  split; [exact Fid|]. split; [exact Frc|]. split; [exact Fq|]. split.
  { rewrite Fa. unfold p1. simpl.
    apply Forall2_fmap_r, Forall_Forall2_diag, Forall_forall.
    intros a _. apply rewriteAnswer_fields. }
  split.
  - intros Hd. rewrite Hrun, (proj2 Hflags Hd). reflexivity.
  - intros Hd. rewrite Hrun.
    destruct ((updateQueryId p1 queryId).1 || ch) eqn:Hre.
    + now destruct (Encode _).
    + exfalso. apply Hd. now apply Hflags.
Qed.

(** ** The whole resolution *)

Lemma cacheKey_none (p : Packet) :
  length (questions p) ≠ 1%nat -> cacheKey p = None.
Proof.
  unfold cacheKey. destruct (questions p) as [|q [|q' l]]; simpl; try done.
Qed.

Lemma resolveRequest_hit (param : Param) (w w1 : World) (c : CacheRes) :
  resolveFromCache param w = (Ok (JObj c), w1) ->
  resolveRequest param w = (Ok (resolved_of c), w1).
Proof.
  intros H. unfold resolveRequest. rewrite (bind_ok _ _ _ _ _ H).
  reflexivity.
Qed.

Lemma resolveRequest_upstream_throw (param : Param) (w w1 : World)
    (e : JsError) :
  upstreamQuery param w = (Throw e, w1) ->
  resolveRequest_upstream param w = (Throw e, w1).
Proof.
  intros H. unfold resolveRequest_upstream.
  now rewrite (bind_throw _ _ _ _ _ H).
Qed.

Lemma resolveRequest_upstream_ok (param : Param) (w w1 : World)
    (c : maybe CacheRes) :
  upstreamQuery param w = (Ok c, w1) ->
  resolveRequest_upstream param w
  = (match c with
     | JObj c' => Ok (resolved_of c')
     | _ => Throw (Error "No answer from cache or upstream")
     end, (detached (updateCachesIfNeeded param c) w1).2).
Proof.
  intros H. unfold resolveRequest_upstream.
  rewrite (bind_ok _ _ _ _ _ H). unfold mbind, M_bind, detached.
  destruct (updateCachesIfNeeded param c w1) as [[u|e] w2];
    now destruct c.
Qed.

Lemma upstreamQuery_throw_world (param : Param) (w w1 : World)
    (e : JsError) :
  upstreamQuery param w = (Throw e, w1) -> w1 = w.
Proof.
  unfold upstreamQuery, mbind, M_bind, lift, throw.
  destruct (resolveDnsUpstream _ _ _) as [[up|]|e']; try (now intros [=]).
  destruct (negb (up_ok up)); [now intros [=]|].
  destruct (negb (validResponseSize _)); [now intros [=]|].
  destruct (makeCacheResponse_total (p_id (requestDecodedDnsPacket param))
              (up_body up) None w) as (r & w' & -> & _).
  discriminate.
Qed.

(** X7: a request that does not have exactly one question goes straight to
    the upstream and leaves every cache alone: the cache lookup returns
    [null] without a read, the result is the one of the upstream query, and
    no store differs after the resolution. *)
Theorem multi_question_bypass (param : Param) (w : World) :
  length (questions (requestDecodedDnsPacket param)) ≠ 1%nat ->
  resolveFromCache param w = (Ok JNull, w) ∧
  same_stores w (resolveRequest param w).2 ∧
  (∀ e w1, upstreamQuery param w = (Throw e, w1) ->
           resolveRequest param w = (Throw e, w1)) ∧
  (∀ c w1, upstreamQuery param w = (Ok c, w1) ->
           resolveRequest param w
           = (match c with
              | JObj c' => Ok (resolved_of c')
              | _ => Throw (Error "No answer from cache or upstream")
              end, w1)).
Proof.
  intros Hlen. pose proof (cacheKey_none _ Hlen) as Hk.
  assert (Hc : resolveFromCache param w = (Ok JNull, w)).
  { unfold resolveFromCache. now rewrite Hk. }
  pose proof (resolveRequest_miss param w w JNull Hc eq_refl) as Hr.
  assert (Hu : ∀ c w1, (detached (updateCachesIfNeeded param c) w1).2 = w1).
  { intros c w1. unfold detached, updateCachesIfNeeded. rewrite Hk.
    now destruct (falsy c). }
  split; [exact Hc|]. split; [|split].
  - rewrite Hr.
    pose proof (preserves_upstreamQuery (same_stores w) param
                  (same_stores_closed w) w (same_stores_refl w)) as Hs.
    destruct (upstreamQuery param w) as [[c|e] w1] eqn:Hq.
    + rewrite (resolveRequest_upstream_ok _ _ _ _ Hq), Hu. exact Hs.
    + rewrite (resolveRequest_upstream_throw _ _ _ _ Hq). exact Hs.
  - intros e w1 Hq. rewrite Hr. now apply resolveRequest_upstream_throw.
  - intros c w1 Hq. rewrite Hr.
    now rewrite (resolveRequest_upstream_ok _ _ _ _ Hq), Hu.
Qed.

(** X8: a cache hit is answered without the upstream: when the cache
    lookup gives a cache response, [resolveRequest] returns its bytes and
    its decoded packet, whatever the upstream would answer; and on a hit in
    the local tier no store is changed. *)
Theorem cache_hit_skips_upstream (param : Param) (w : World) :
  (∀ c w1,
     resolveFromCache param w = (Ok (JObj c), w1) ->
     resolveRequest param w = (Ok (resolved_of c), w1)) ∧
  (∀ key c w1,
     cacheKey (requestDecodedDnsPacket param) = Some key ->
     resolveFromLocalCache (p_id (requestDecodedDnsPacket param)) key w
       = (Ok (JObj c), w1) ->
     resolveRequest param w = (Ok (resolved_of c), w1) ∧ same_stores w w1).
Proof.
  split; [intros c w1; apply resolveRequest_hit|].
  intros key c w1 Hk Hl. split.
  - apply resolveRequest_hit. unfold resolveFromCache.
    rewrite Hk, (cacheKey_not_empty _ _ Hk).
    now rewrite (bind_ok _ _ _ _ _ Hl).
  - pose proof (preserves_resolveFromLocalCache (same_stores w)
                  (p_id (requestDecodedDnsPacket param)) key
                  (same_stores_closed w) w (same_stores_refl w)) as Hs.
    now rewrite Hl in Hs.
Qed.

(** X9: a hit in the edge tier is promoted.  After a local miss, when the
    edge lookup gives a cache response with a non-zero expiry,
    [resolveRequest] returns it and the local cache then holds, under the
    key, its bytes and its expiry; the edge cache, the deferred puts and the
    rejections are as before. *)
Theorem edge_hit_promotes (param : Param) (key : string) (w0 w w1 : World)
    (c0 : maybe CacheRes) (c : CacheRes) :
  cacheKey (requestDecodedDnsPacket param) = Some key ->
  resolveFromLocalCache (p_id (requestDecodedDnsPacket param)) key w0
    = (Ok c0, w) ->
  falsy c0 = true ->
  resolveFromHttpCache (p_id (requestDecodedDnsPacket param))
    (url (request param)) key w = (Ok (JObj c), w1) ->
  falsy_num (ttlEndTime c) = false ->
  ∃ w2,
    resolveRequest param w0 = (Ok (resolved_of c), w2) ∧
    dnsResCache w2 !! key = Some (stored_entry c) ∧
    httpCache w2 = httpCache w0 ∧ deferred w2 = deferred w0 ∧
    rejections w2 = rejections w0.
Proof.
  intros Hk Hl Hf Hh Ht.
  pose proof (preserves_resolveFromLocalCache (same_stores w0)
                (p_id (requestDecodedDnsPacket param)) key
                (same_stores_closed w0) w0 (same_stores_refl w0)) as Hs.
  rewrite Hl in Hs. simpl in Hs.
  pose proof (preserves_resolveFromHttpCache (same_stores w0)
                (p_id (requestDecodedDnsPacket param))
                (url (request param)) key
                (same_stores_closed w0) w Hs) as Hs1.
  rewrite Hh in Hs1. simpl in Hs1.
  destruct Hs1 as (_ & Hd & Hhc & Hdef & Hrej).
  exists (set_dnsResCache (<[key := stored_entry c]> (dnsResCache w1)) w1).
  split.
  - apply resolveRequest_hit.
    rewrite (resolveFromCache_local_miss _ _ _ _ _ Hk Hl Hf).
    unfold resolveFromCache_edge. rewrite (bind_ok _ _ _ _ _ Hh).
    unfold updateLocalCacheIfNeeded, mbind, M_bind.
    rewrite (cacheKey_not_empty _ _ Hk), Ht. reflexivity.
  - simpl. split; [apply lookup_insert_eq | done].
Qed.

(** X10: nothing is cached on a failure.  When the cache gives nothing and
    the upstream query throws, [resolveRequest] throws the same error, and
    every store is as it was before the resolution. *)
Theorem upstream_failure_not_cached (param : Param) (w w1 w2 : World)
    (c : maybe CacheRes) (e : JsError) :
  resolveFromCache param w = (Ok c, w1) -> falsy c = true ->
  upstreamQuery param w1 = (Throw e, w2) ->
  resolveRequest param w = (Throw e, w1) ∧ same_stores w w1.
Proof.
  intros Hc Hf Hq.
  pose proof (upstreamQuery_throw_world _ _ _ _ Hq) as ->.
  split.
  - rewrite (resolveRequest_miss _ _ _ _ Hc Hf).
    now apply resolveRequest_upstream_throw.
  - now apply (resolveFromCache_falsy param w w1 c).
Qed.

(** X11: the upstream query throws exactly when the exchange itself threw,
    gave no response, gave a response that is not [ok], or gave a body of
    invalid size; a failure of the parser never makes it throw.  When it
    throws the world is as it was. *)
Theorem upstreamQuery_throws_iff (param : Param) (w : World) :
  let answer := resolveDnsUpstream (request param) (dnsResolverUrl param)
                  (requestBodyBuffer param) in
  ((∃ e w', upstreamQuery param w = (Throw e, w')) ↔
   ((∃ e, answer = Throw e) ∨ answer = Ok None ∨
    ∃ up, answer = Ok (Some up) ∧
          (up_ok up = false ∨ validResponseSize (up_body up) = false))) ∧
  (∀ e w', upstreamQuery param w = (Throw e, w') -> w' = w).
Proof.
  intros answer. split; [|intros e w'; apply upstreamQuery_throw_world].
  unfold upstreamQuery, mbind, M_bind, lift, throw. fold answer.
  destruct answer as [[up|]|e0].
  - destruct (up_ok up) eqn:Hok; simpl.
    + destruct (validResponseSize (up_body up)) eqn:Hv; simpl.
      * destruct (makeCacheResponse_total
                    (p_id (requestDecodedDnsPacket param)) (up_body up)
                    None w) as (r & w' & -> & _).
        split; [intros (e & w1 & [=])|].
        intros [(e & [=]) | [[=] | (up' & [= <-] & [H|H])]]; congruence.
      * split; [|by eexists _, _]. intros _. right. right.
        exists up. split; [reflexivity|now right].
    + split; [|by eexists _, _]. intros _. right. right.
      exists up. split; [reflexivity|now left].
  - split; [|by eexists _, _]. intros _. right. now left.
  - split; [|by eexists _, _]. intros _. left. by eexists.
Qed.

Lemma determineCacheExpiry_zero (p : Packet) (w : World) :
  rcodeNoError p = false ∨ countedTTLs (answers p) = [] ->
  determineCacheExpiry p w = (Ok 0, w).
Proof.
  intros [H|H]; [apply determineCacheExpiry_not_cacheable; now left|].
  destruct (rcodeNoError p) eqn:Hrc;
    [|apply determineCacheExpiry_not_cacheable; now left].
  destruct (answers p) as [|a l] eqn:Hans;
    [apply determineCacheExpiry_not_cacheable; now right|].
  rewrite determineCacheExpiry_counted by (done || now rewrite Hans).
  now rewrite Hans, H.
Qed.

Lemma updateCachesIfNeeded_no_expiry (param : Param) (c : CacheRes)
    (w : World) :
  falsy_num (ttlEndTime c) = true ->
  updateCachesIfNeeded param (JObj c) w = (Ok tt, w).
Proof.
  intros Ht. unfold updateCachesIfNeeded. cbn [falsy].
  destruct (falsy_key _); [reflexivity|].
  assert (Hno : ∀ c', JObj c = JObj c' -> falsy_num (ttlEndTime c') = true)
    by (intros c' [= <-]; exact Ht).
  rewrite (bind_ok _ _ _ _ _
             (updateLocalCacheIfNeeded_no_expiry _ (JObj c) w Hno)).
  now apply updateHttpCacheIfNeeded_no_expiry.
Qed.

(** X12: an answer that is not cacheable is passed on and not stored.  When
    the upstream answer decodes to a packet whose response code is not "no
    error", or none of whose answers has a TTL that counts, and the clock is
    after the epoch, the resolution returns the decoded packet with its
    answers untouched and only its id rewritten, with the bytes of the answer
    itself unless the id had to change; the world afterwards differs by one
    reading of the clock, so nothing is written to either tier.  If the
    id had to change and the encoder fails, the resolution throws. *)
Theorem uncacheable_answer_not_cached (param : Param) (up : UpResponse)
    (d0 : Packet) (w : World) :
  resolveDnsUpstream (request param) (dnsResolverUrl param)
    (requestBodyBuffer param) = Ok (Some up) ->
  up_ok up = true -> validResponseSize (up_body up) = true ->
  Decode (up_body up) = Ok d0 ->
  rcodeNoError d0 = false ∨ countedTTLs (answers d0) = [] ->
  0 < now w ->
  let r2 := updateQueryId d0 (p_id (requestDecodedDnsPacket param)) in
  answers r2.2 = answers d0 ∧
  resolveRequest_upstream param w
  = match (if r2.1 then Encode r2.2 else Ok (up_body up)) with
    | Ok b =>
        (Ok {| responseBodyBuffer := b;
               responseDecodedDnsPacket := Some r2.2 |}, tick w)
    | Throw _ => (Throw (Error "No answer from cache or upstream"), tick w)
    end.
Proof.
  intros Hup Hok Hsize Hdec Hnc Hnow r2.
  split; [apply updateQueryId_fields|].
  assert (Hq : upstreamQuery param w
    = match (if r2.1 then Encode r2.2 else Ok (up_body up)) with
      | Ok b => (Ok (JObj {| dnsPacket := b; decodedDnsPacket := Some r2.2;
                             ttlEndTime := Some 0 |}), tick w)
      | Throw _ => (Ok JFalse, tick w)
      end).
  { rewrite (upstreamQuery_answer _ _ _ Hup Hok Hsize).
    unfold makeCacheResponse.
    assert (Hstale : (mret false : M bool) w = (Ok false, w))
      by reflexivity.
    rewrite (bind_ok _ _ _ _ _ Hstale), Hdec. cbn [safeBox].
    rewrite (bind_ok _ _ _ _ _ (determineCacheExpiry_zero d0 w Hnc)).
    rewrite (bind_ok _ _ _ _ _ (updateTtl_past d0 0 w Hnow)).
    cbn [fst snd]. fold r2. rewrite orb_false_r.
    destruct r2.1; [destruct (Encode r2.2)|]; reflexivity. }
  destruct (if r2.1 then Encode r2.2 else Ok (up_body up)) as [b|err].
  - rewrite (resolveRequest_upstream_ok _ _ _ _ Hq).
    unfold detached. now rewrite updateCachesIfNeeded_no_expiry.
  - now rewrite (resolveRequest_upstream_ok _ _ _ _ Hq).
Qed.

(** X13: a cacheable answer of the upstream is stored as it is returned.
    When the cache gave nothing, the request has a key and the upstream
    query gives a cache response with a non-zero expiry, [resolveRequest]
    returns it and the local cache then holds, under the key, its bytes and
    its expiry.  No put is handed to
    [waitUntil]; with an edge tier the failed edge write leaves its error in
    a rejected promise, without an edge tier nothing else changes. *)
Theorem fresh_answer_is_stored (param : Param) (key : string)
    (w0 w w1 : World) (c0 : maybe CacheRes) (c : CacheRes) :
  cacheKey (requestDecodedDnsPacket param) = Some key ->
  resolveFromCache param w0 = (Ok c0, w) -> falsy c0 = true ->
  upstreamQuery param w = (Ok (JObj c), w1) ->
  falsy_num (ttlEndTime c) = false ->
  ∃ w2,
    resolveRequest param w0 = (Ok (resolved_of c), w2) ∧
    dnsResCache w2 !! key = Some (stored_entry c) ∧
    httpCache w2 = httpCache w0 ∧ deferred w2 = deferred w0 ∧
    rejections w2
    = rejections w0 ++ (if httpCache w0 is Some _ then [edge_write_error]
                        else []).
Proof.
  intros Hk Hc Hf Hq Ht.
  pose proof (resolveFromCache_falsy param w0 w c0 Hc Hf) as Hs.
  pose proof (preserves_upstreamQuery (same_stores w0) param
                (same_stores_closed w0) w Hs) as Hs1.
  rewrite Hq in Hs1. simpl in Hs1.
  destruct Hs1 as (_ & Hd & Hhc & Hdef & Hrej).
  set (wl := set_dnsResCache (<[key := stored_entry c]> (dnsResCache w1)) w1).
  assert (Hl : updateLocalCacheIfNeeded (Some key) (JObj c) w1 = (Ok tt, wl)).
  { unfold updateLocalCacheIfNeeded.
    now rewrite (cacheKey_not_empty _ _ Hk), Ht. }
  assert (Hne : key ≠ "").
  { pose proof (cacheKey_not_empty _ _ Hk) as Hfk. simpl in Hfk.
    now destruct (decide (key = "")). }
  rewrite (resolveRequest_miss _ _ _ _ Hc Hf).
  rewrite (resolveRequest_upstream_ok _ _ _ _ Hq).
  unfold detached, updateCachesIfNeeded. cbn [falsy].
  rewrite Hk, (cacheKey_not_empty _ _ Hk).
  rewrite (bind_ok _ _ _ _ _ Hl).
  destruct (httpCache w0) as [cache|] eqn:Hw0.
  - rewrite (updateHttpCacheIfNeeded_throws param key c cache wl)
      by (done || (simpl; congruence)).
    eexists. split; [reflexivity|]. simpl.
    split; [apply lookup_insert_eq|]. by rewrite Hrej.
  - assert (Hh : updateHttpCacheIfNeeded param (Some key) (JObj c) wl
                 = (Ok tt, wl)).
    { unfold updateHttpCacheIfNeeded, mbind, M_bind, get_world. simpl.
      now rewrite Hhc. }
    rewrite Hh. eexists. split; [reflexivity|]. simpl.
    split; [apply lookup_insert_eq|]. by rewrite Hrej, app_nil_r.
Qed.
End Resolver.

(** * The statements at sample inputs *)

Example cacheKey_example :
  cacheKey sample_toLowerCase sample_request_packet = Some "example.com:A".
Proof. reflexivity. Qed.

Lemma cacheKey_spec_witness :
  cacheKey sample_toLowerCase (sample_packet []) = Some "example.com:A" ∧
  cacheKey sample_toLowerCase (question_packet unicode_question)
    = Some "example.com:A" ∧
  cacheKey sample_toLowerCase (set_id (sample_packet []) 9)
    = cacheKey sample_toLowerCase (sample_packet []) ∧
  cacheKey sample_toLowerCase two_question_packet = None.
Proof.
  split; [|split; [|split]].
  - exact (proj1 (proj1 (proj2 (cacheKey_spec sample_toLowerCase
                                  (sample_packet [])))
                    sample_question eq_refl)).
  - exact (proj1 (proj1 (proj2 (cacheKey_spec sample_toLowerCase
                                  (question_packet unicode_question)))
                    unicode_question eq_refl)).
  - exact (proj1 (proj2 (proj2 (cacheKey_spec sample_toLowerCase
                                  (sample_packet []))))
             (set_id (sample_packet []) 9) eq_refl).
  - apply (proj2 (proj1 (cacheKey_spec sample_toLowerCase
                           two_question_packet))).
    simpl. lia.
Defined.

Lemma determineCacheExpiry_spec_witness :
  let w := world_at sample_time None in
  determineCacheExpiry
    (sample_packet [answer_A (Some 300); answer_OPT; answer_A (Some 60)]) w
    = (Ok (sample_time + 90000), tick w) ∧
  determineCacheExpiry no_question_packet w = (Ok 0, w).
Proof.
  intros w. split.
  - apply (proj1 (determineCacheExpiry_spec
                    (sample_packet [answer_A (Some 300); answer_OPT;
                                    answer_A (Some 60)]) w)).
    + reflexivity.
    + simpl. lia.
  - apply (proj2 (determineCacheExpiry_spec no_question_packet w)).
    right. reflexivity.
Defined.

Lemma determineCacheExpiry_skips_no_ttl_witness :
  let w := world_at sample_time None in
  determineCacheExpiry (sample_packet [answer_A (Some 0); answer_OPT]) w
  = (Ok 0, w).
Proof.
  intros w.
  apply (proj2 (proj2 (determineCacheExpiry_skips_no_ttl
                         (sample_packet [answer_A (Some 0); answer_OPT]) w))).
  - reflexivity.
  - constructor; [right; reflexivity|].
    constructor; [left; reflexivity|]. constructor.
Defined.

Lemma updateTtl_spec_witness :
  let w := world_at sample_time None in
  let p := sample_packet [answer_A (Some 300); answer_OPT] in
  updateTtl sample_optAnswer p (sample_time - 1) w = (Ok (false, p), tick w) ∧
  ∃ changed p',
    updateTtl sample_optAnswer p (sample_time + 120000) w
      = (Ok (changed, p'), tick w) ∧
    Forall2 (fun a a' =>
               a_name a' = a_name a ∧ a_type a' = a_type a ∧
               ttl a' = if sample_optAnswer a then ttl a else Some 120)
            (answers p) (answers p') ∧
    (changed = true ↔ map ttl (answers p') ≠ map ttl (answers p)).
Proof.
  intros w p. split.
  - apply (proj1 (updateTtl_spec sample_optAnswer p (sample_time - 1) w)).
    unfold w, now, sample_time. simpl. lia.
  - destruct (proj2 (updateTtl_spec sample_optAnswer p
                       (sample_time + 120000) w))
      as (changed & p' & Hrun & _ & _ & _ & Hans & Hch).
    + unfold w, now, sample_time. simpl. lia.
    + exists changed, p'. exact (conj Hrun (conj Hans Hch)).
Defined.

Lemma updateTtl_idempotent_witness :
  let w := world_at sample_time None in
  let p := sample_packet [answer_A (Some 300); answer_OPT] in
  ∃ changed p1,
    updateTtl sample_optAnswer p (sample_time + 120000) w
      = (Ok (changed, p1), tick w) ∧
    updateTtl sample_optAnswer p1 (sample_time + 120000) (tick w)
      = (Ok (false, p1), tick (tick w)).
Proof.
  intros w p.
  apply (updateTtl_idempotent sample_optAnswer p (sample_time + 120000) w).
  reflexivity.
Defined.

(** The resolver with the sample collaborators; [up] is the body of the
    upstream answer. *)
Local Abbreviation S_makeCacheResponse :=
  (makeCacheResponse sample_Decode sample_Encode sample_optAnswer).
Local Abbreviation S_resolveFromLocalCache :=
  (resolveFromLocalCache sample_Decode sample_Encode sample_optAnswer).
Local Abbreviation S_resolveFromHttpCache :=
  (resolveFromHttpCache sample_Decode sample_Encode sample_optAnswer
     sample_urlOrigin).
Local Abbreviation S_resolveFromCache :=
  (resolveFromCache sample_toLowerCase sample_Decode sample_Encode sample_optAnswer
     sample_urlOrigin).
Local Abbreviation S_resolveFromCache_edge :=
  (resolveFromCache_edge sample_Decode sample_Encode sample_optAnswer
     sample_urlOrigin).
Local Abbreviation S_upstreamQuery up :=
  (upstreamQuery sample_Decode sample_Encode sample_optAnswer
     sample_validResponseSize (sample_upstream up)).
Local Abbreviation S_resolveRequest up :=
  (resolveRequest sample_toLowerCase sample_Decode sample_Encode sample_optAnswer
     sample_validResponseSize sample_urlOrigin (sample_upstream up)).
Local Abbreviation S_resolveRequest_upstream up :=
  (resolveRequest_upstream sample_toLowerCase sample_Decode sample_Encode sample_optAnswer
     sample_validResponseSize sample_urlOrigin (sample_upstream up)).
Local Abbreviation S_updateLocalCacheIfNeeded := updateLocalCacheIfNeeded.
Local Abbreviation S_updateHttpCacheIfNeeded :=
  (updateHttpCacheIfNeeded sample_urlOrigin).

Lemma stale_entry_is_miss_witness :
  let stale := Some (sample_time - 5000) in
  let w1 := sample_world (local_entry sample_body stale) None in
  let w2 := sample_world (local_entry sample_body stale)
              (Some (edge_entry sample_body stale)) in
  S_makeCacheResponse 7 sample_body stale w1 = (Ok JFalse, tick w1) ∧
  (S_resolveFromLocalCache 7 "example.com:A" w1 = (Ok JFalse, tick w1) ∧
   S_resolveFromCache sample_param w1 = (Ok JFalse, tick w1) ∧
   S_resolveRequest sample_body sample_param w1
     = S_resolveRequest_upstream sample_body sample_param (tick w1)) ∧
  (S_resolveFromHttpCache 7 "https://edge.example/dns-query" "example.com:A"
     (tick w2) = (Ok JFalse, tick (tick w2)) ∧
   S_resolveFromCache sample_param w2 = (Ok JFalse, tick (tick w2)) ∧
   S_resolveRequest sample_body sample_param w2
     = S_resolveRequest_upstream sample_body sample_param (tick (tick w2))).
Proof.
  intros stale w1 w2.
  destruct (stale_entry_is_miss sample_toLowerCase sample_Decode sample_Encode sample_optAnswer
              sample_validResponseSize sample_urlOrigin
              (sample_upstream sample_body)) as (H1 & H2 & H3).
  split; [|split].
  - apply H1. reflexivity.
  - destruct (H2 sample_param "example.com:A"%string
                (local_entry sample_body stale) (sample_time - 5000) w1)
      as (Hl & _ & Hn); try reflexivity.
    destruct (Hn JFalse (tick w1) eq_refl eq_refl) as [Hc Hr].
    exact (conj Hl (conj Hc Hr)).
  - destruct (H3 sample_param "example.com:A"%string
                {[ "https://edge.example/example.com:A"%string
                   := edge_entry sample_body stale ]}
                (edge_entry sample_body stale)
                {| md_ttlEndTime := stale; md_bodyUsed := true;
                   md_blocklistInfo := [] |}
                (sample_time - 5000) (tick w2))
      as (Hh & _ & Hn); try reflexivity.
    destruct (Hn w2 JFalse eq_refl eq_refl) as [Hc Hr].
    exact (conj Hh (conj Hc Hr)).
Defined.

Lemma decode_failure_policy_witness :
  let fresh := Some (sample_time + 1000) in
  let w1 := sample_world (local_entry sample_bad_body fresh) None in
  let w2 := sample_world (local_entry sample_bad_body fresh)
              (Some (edge_entry sample_bad_body fresh)) in
  let w3 := world_at sample_time None in
  (∃ w', same_stores w1 w' ∧
     S_resolveFromLocalCache 7 "example.com:A" w1 = (Ok JFalse, w') ∧
     S_resolveRequest sample_body sample_param w1
       = S_resolveRequest_upstream sample_body sample_param w') ∧
  (∃ w', same_stores (tick w2) w' ∧
     S_resolveFromCache_edge sample_param "example.com:A" (tick w2)
       = (Ok JFalse, w') ∧
     S_resolveRequest sample_body sample_param w2
       = S_resolveRequest_upstream sample_body sample_param w') ∧
  S_resolveRequest sample_bad_body sample_param w3
    = (Throw (Error "No answer from cache or upstream"), w3).
Proof.
  intros fresh w1 w2 w3. split; [|split].
  - destruct (proj1 (decode_failure_policy sample_toLowerCase sample_Decode sample_Encode
                       sample_optAnswer sample_validResponseSize
                       sample_urlOrigin (sample_upstream sample_body))
                sample_param "example.com:A"%string
                (local_entry sample_bad_body fresh)
                (Error "malformed message") w1)
      as (w' & Hs & Hl & Hc & Hr); try reflexivity.
    exists w'. split; [exact Hs|]. split; [exact Hl|].
    assert (He : S_resolveFromCache_edge sample_param "example.com:A" w'
                 = (Ok JFalse, w')).
    { injection Hl as <-. reflexivity. }
    exact (proj2 (Hr JFalse w' He eq_refl)).
  - destruct (proj1 (proj2 (decode_failure_policy sample_toLowerCase sample_Decode sample_Encode
                       sample_optAnswer sample_validResponseSize
                       sample_urlOrigin (sample_upstream sample_body)))
                sample_param "example.com:A"%string
                {[ "https://edge.example/example.com:A"%string
                   := edge_entry sample_bad_body fresh ]}
                (edge_entry sample_bad_body fresh)
                {| md_ttlEndTime := fresh; md_bodyUsed := true;
                   md_blocklistInfo := [] |}
                (Error "malformed message") (tick w2))
      as (w' & Hs & _ & Hc & Hr); try reflexivity.
    exists w'. split; [exact Hs|]. split; [exact Hc|].
    exact (proj2 (Hr w2 JFalse eq_refl eq_refl)).
  - apply (proj2 (proj2 (decode_failure_policy sample_toLowerCase sample_Decode sample_Encode
                   sample_optAnswer sample_validResponseSize
                   sample_urlOrigin (sample_upstream sample_bad_body)))
             sample_param
             {| up_ok := true; up_status := 200; up_statusText := "OK";
                up_body := sample_bad_body |}
             (Error "malformed message") w3 JFalse w3); reflexivity.
Defined.


Lemma no_write_without_expiry_witness :
  let w := world_at sample_time (Some ∅) in
  let v := JObj (local_entry sample_body (Some 0)) in
  (S_updateLocalCacheIfNeeded (Some "example.com:A"%string) v w = (Ok tt, w) ∧
   S_updateHttpCacheIfNeeded sample_param (Some "example.com:A"%string) v w
     = (Ok tt, w)) ∧
  caches_clean (S_resolveRequest sample_body sample_param w).2.
Proof.
  intros w v.
  destruct (no_write_without_expiry sample_toLowerCase sample_Decode sample_Encode
              sample_optAnswer sample_validResponseSize sample_urlOrigin
              (sample_upstream sample_body)) as (H1 & _ & H3).
  split.
  - apply H1. intros c [= <-]. right. reflexivity.
  - apply H3. split.
    + intros k c Hget. unfold w in Hget. simpl in Hget.
      rewrite lookup_empty in Hget. discriminate.
    + apply Forall_nil_2.
Defined.

(** C2: with the edge tier present, a key and a non-zero expiry,
    [updateHttpCacheIfNeeded] builds no response and schedules no put: the
    headers call [this.httpCacheMetadata], which is a function of the module
    and not a member of the object, and the call throws.  In a whole
    resolution the answer is returned and stored in the local cache, no put
    is handed to [waitUntil], and the error is left in a rejected
    promise. *)
Theorem edge_write_throws_sample :
  let w := world_at sample_time (Some ∅) in
  let err := TypeError "this.httpCacheMetadata is not a function" in
  cacheKey sample_toLowerCase (requestDecodedDnsPacket sample_param)
    = Some "example.com:A" ∧
  falsy_num (ttlEndTime sample_cacheRes) = false ∧
  S_updateHttpCacheIfNeeded sample_param (Some "example.com:A"%string)
    (JObj sample_cacheRes) w = (Throw err, w) ∧
  ∃ r w',
    S_resolveRequest sample_body sample_param w = (Ok r, w') ∧
    is_Some (dnsResCache w' !! "example.com:A"%string) ∧
    deferred w' = [] ∧ rejections w' = [err].
Proof.
  intros w err. split; [reflexivity|]. split; [reflexivity|]. split.
  - now apply (updateHttpCacheIfNeeded_throws sample_urlOrigin sample_param
                 "example.com:A" sample_cacheRes ∅ w).
  - eexists _, _. split; [reflexivity|]. split; [|split; reflexivity].
    simpl. rewrite lookup_insert_eq. by eexists.
Qed.

Example resolveRequest_fresh_answer :
  let w := world_at sample_time None in
  ∃ w',
    S_resolveRequest sample_body sample_param w
    = (Ok {| responseBodyBuffer := [x0a; x0b];
             responseDecodedDnsPacket :=
               Some (sample_packet [answer_A (Some 330)]) |}, w') ∧
    dnsResCache w' !! "example.com:A"%string
    = Some (local_entry [x0a; x0b] (Some (sample_time + 330000))).
Proof.
  intros w. eexists. split; [reflexivity|]. simpl.
  now rewrite lookup_insert_eq.
Qed.

(** * The upstream exchange *)

(** X14: with a datagram transport the query goes out over UDP first, and
    over TCP exactly when the UDP answer is present and truncated; no HTTP
    request is made.  The result is a response built from the last answer:
    the TCP answer after a truncated UDP answer, the UDP answer otherwise,
    a response of status 503 when that answer is [null]; a rejected query
    rejects the whole exchange. *)
Theorem udp_truncation_fallback (env : Upstream.Env) (t : Upstream.Transport)
    (request : Request) (resolverUrl : string) (body : bytes) :
  Upstream.transport env = Some t ->
  let r := Upstream.resolveDnsUpstream env request resolverUrl body in
  let truncated_udp :=
    ∃ a, Upstream.udpquery t body = Ok (Some a) ∧
         Upstream.truncated env a = true in
  (r.2 = [Upstream.UdpQuery body] ∨
   r.2 = [Upstream.UdpQuery body; Upstream.TcpQuery body]) ∧
  (Upstream.TcpQuery body ∈ r.2 ↔ truncated_udp) ∧
  (truncated_udp ->
   r.1 = match Upstream.tcpquery t body with
         | Throw e => Throw e
         | Ok ans => Ok (Some (Upstream.response_of ans))
         end) ∧
  (¬ truncated_udp ->
   r.1 = match Upstream.udpquery t body with
         | Throw e => Throw e
         | Ok ans => Ok (Some (Upstream.response_of ans))
         end).
Proof.
  intros Ht r tr. unfold r, tr, Upstream.resolveDnsUpstream. rewrite Ht.
  assert (Hno : Upstream.TcpQuery body ∉ [Upstream.UdpQuery body]).
  { intros H. apply elem_of_cons in H as [H|H]; [discriminate|].
    now apply elem_of_nil in H. }
  destruct (Upstream.udpquery t body) as [[a|]|e].
  - destruct (Upstream.truncated env a) eqn:Htr.
    + assert (Hex : ∃ a0, Ok (Some a) = Ok (Some a0)
                          ∧ Upstream.truncated env a0 = true)
        by (by exists a).
      destruct (Upstream.tcpquery t body) as [ans|e]; simpl;
        (split; [now right|]); (split; [split; [done|]; intros _;
           right; left|]); (split; [done|]); intros Hn; now destruct Hn.
    + simpl. split; [now left|]. split.
      * split; [done|]. intros (a0 & [= <-] & Ha). congruence.
      * split; [|done]. intros (a0 & [= <-] & Ha). congruence.
  - simpl. split; [now left|]. split.
    + split; [done|]. intros (a0 & [=] & _).
    + split; [|done]. intros (a0 & [=] & _).
  - simpl. split; [now left|]. split.
    + split; [done|]. intros (a0 & [=] & _).
    + split; [|done]. intros (a0 & [=] & _).
Qed.

(** X15: without a datagram transport a request whose method is neither GET
    nor POST is refused with "get/post requests only", and a URL that does
    not parse makes the exchange throw; in both cases nothing is sent. *)
Theorem only_get_and_post (env : Upstream.Env) (request : Request)
    (resolverUrl : string) (body : bytes) :
  Upstream.transport env = None ->
  let r := Upstream.resolveDnsUpstream env request resolverUrl body in
  (∀ u ru,
     Upstream.parseURL env (url request) = Ok u ->
     Upstream.parseURL env resolverUrl = Ok ru ->
     method request ≠ "GET" -> method request ≠ "POST" ->
     r = (Throw (Error "get/post requests only"), [])) ∧
  (∀ e, Upstream.parseURL env (url request) = Throw e -> r = (Throw e, [])) ∧
  (∀ u e,
     Upstream.parseURL env (url request) = Ok u ->
     Upstream.parseURL env resolverUrl = Throw e -> r = (Throw e, [])).
Proof.
  intros Ht r. unfold r, Upstream.resolveDnsUpstream. rewrite Ht.
  split; [|split].
  - intros u ru -> -> Hg Hp.
    rewrite !bool_decide_eq_false_2 by done.
    now rewrite andb_false_r.
  - now intros e ->.
  - now intros u e -> ->.
Qed.


(** X17: when the datagram transport has no answer, over UDP or over TCP
    after a truncated UDP answer, the exchange gives a response of status
    503, and the upstream query throws "503 http err: " with the world as it
    was; nothing reaches the parser. *)
Theorem no_datagram_answer_fails (Decode : bytes -> outcome Packet)
    (Encode : Packet -> outcome bytes) (optAnswer : Answer -> bool)
    (validResponseSize : bytes -> bool) (env : Upstream.Env)
    (t : Upstream.Transport) (param : Param) (w : World) :
  Upstream.transport env = Some t ->
  Upstream.udpquery t (requestBodyBuffer param) = Ok None ∨
  (∃ a, Upstream.udpquery t (requestBodyBuffer param) = Ok (Some a) ∧
        Upstream.truncated env a = true ∧
        Upstream.tcpquery t (requestBodyBuffer param) = Ok None) ->
  Upstream.answer env (request param) (dnsResolverUrl param)
    (requestBodyBuffer param) = Ok (Some (Upstream.response_of None)) ∧
  upstreamQuery Decode Encode optAnswer validResponseSize
    (Upstream.answer env) param w
  = (Throw (Error "503 http err: "), w).
Proof.
  intros Ht Hno.
  assert (Ha : Upstream.answer env (request param) (dnsResolverUrl param)
                 (requestBodyBuffer param)
               = Ok (Some (Upstream.response_of None))).
  { unfold Upstream.answer, Upstream.resolveDnsUpstream. rewrite Ht.
    destruct Hno as [-> | (a & -> & -> & ->)]; reflexivity. }
  split; [exact Ha|].
  unfold upstreamQuery, mbind, M_bind, lift. rewrite Ha. reflexivity.
Qed.

(** * The collaborators *)


(** * The further properties at sample inputs *)

Lemma updateQueryId_spec_witness :
  (updateQueryId (sample_packet []) 9).1 = true ∧
  (updateQueryId (sample_packet []) 9).2 ≠ sample_packet [] ∧
  p_id (updateQueryId (sample_packet []) 9).2 = 9.
Proof.
  destruct (updateQueryId_spec (sample_packet []) 9)
    as (Hid & _ & _ & _ & Hch & Hiff & _).
  assert (Ht : (updateQueryId (sample_packet []) 9).1 = true).
  { apply Hiff. split; discriminate. }
  split; [exact Ht|]. split; [now apply Hch | exact Hid].
Defined.

Lemma cacheKey_ignores_whitespace_witness :
  cacheKey sample_toLowerCase (question_packet unicode_question)
  = cacheKey sample_toLowerCase (question_packet plain_question).
Proof.
  apply (cacheKey_ignores_whitespace sample_toLowerCase
           (question_packet plain_question)
           (question_packet unicode_question)
           plain_question unicode_question nbsp em_space);
    try reflexivity.
  - exists [map ascii_of_nat [194; 160]%nat]. split; [|reflexivity].
    constructor; [|constructor].
    apply (bool_decide_unpack _). by vm_compute.
  - exists [map ascii_of_nat [226; 128; 131]%nat]. split; [|reflexivity].
    constructor; [|constructor].
    apply (bool_decide_unpack _). by vm_compute.
Defined.

Lemma makeCacheResponse_consistent_witness :
  let w := world_at sample_time None in
  ∃ c w',
    S_makeCacheResponse 9 sample_body (Some (sample_time + 120000)) w
      = (Ok (JObj c), w') ∧
    ∃ d0 d e,
      sample_Decode sample_body = Ok d0 ∧ decodedDnsPacket c = Some d ∧
      ttlEndTime c = Some e ∧ e = sample_time + 120000 ∧ p_id d = 9 ∧
      questions d = questions d0 ∧
      (d = d0 -> dnsPacket c = sample_body) ∧
      (d ≠ d0 -> sample_Encode d = Ok (dnsPacket c)).
Proof.
  intros w. eexists _, _. split; [reflexivity|].
  destruct (makeCacheResponse_consistent sample_Decode sample_Encode
              sample_optAnswer 9 sample_body (Some (sample_time + 120000))
              w _ _ eq_refl)
    as (d0 & d & e & H1 & H2 & H3 & H4 & H5 & _ & H6 & _ & H7 & H8).
  exists d0, d, e. split; [exact H1|]. split; [exact H2|].
  split; [exact H3|]. split; [exact (proj1 (H4 _ eq_refl))|].
  split; [exact H5|]. split; [exact H6|]. split; [exact H7 | exact H8].
Defined.

Lemma cache_hit_counts_down_witness :
  let w := world_at sample_time None in
  ∃ d,
    Forall2 (fun a a' =>
               a_name a' = a_name a ∧ a_type a' = a_type a ∧
               ttl a' = if sample_optAnswer a then ttl a else Some 120)
            [answer_A (Some 300)] (answers d) ∧
    S_makeCacheResponse 7 sample_body (Some (sample_time + 120000)) w
    = (Ok (JObj {| dnsPacket := [x0a; x0b]; decodedDnsPacket := Some d;
                   ttlEndTime := Some (sample_time + 120000) |}),
       tick (tick w)).
Proof.
  intros w.
  destruct (cache_hit_counts_down sample_Decode sample_Encode
              sample_optAnswer 7 sample_body (sample_time + 120000)
              (sample_packet [answer_A (Some 300)]) w)
    as (d & _ & _ & _ & Hans & _ & Hneq).
  - reflexivity.
  - unfold w, now, sample_time. simpl. lia.
  - unfold w, now, sample_time. simpl. lia.
  - exists d. split; [exact Hans|]. apply Hneq. intros ->.
    inversion Hans as [|a a' l l' (_ & _ & Httl) _]. discriminate.
Defined.

Lemma multi_question_bypass_witness :
  let w := sample_world (local_entry sample_body (Some (sample_time + 1000)))
             (Some (edge_entry sample_body (Some (sample_time + 1000)))) in
  resolveFromCache sample_toLowerCase sample_Decode sample_Encode sample_optAnswer
    sample_urlOrigin sample_param_two w = (Ok JNull, w) ∧
  same_stores w (S_resolveRequest sample_body sample_param_two w).2.
Proof.
  intros w.
  destruct (multi_question_bypass sample_toLowerCase sample_Decode sample_Encode
              sample_optAnswer sample_validResponseSize sample_urlOrigin
              (sample_upstream sample_body) sample_param_two w)
    as (H1 & H2 & _).
  - simpl. lia.
  - exact (conj H1 H2).
Defined.

Lemma cache_hit_skips_upstream_witness :
  let w := sample_world (local_entry sample_body (Some (sample_time + 120000)))
             None in
  ∃ c w1,
    resolveRequest sample_toLowerCase sample_Decode sample_Encode sample_optAnswer
      sample_validResponseSize sample_urlOrigin unreachable_upstream
      sample_param w = (Ok (resolved_of c), w1) ∧
    same_stores w w1.
Proof.
  intros w. eexists _, _.
  apply (proj2 (cache_hit_skips_upstream sample_toLowerCase sample_Decode sample_Encode
                  sample_optAnswer sample_validResponseSize sample_urlOrigin
                  unreachable_upstream sample_param w)
           "example.com:A"%string); reflexivity.
Defined.

Lemma edge_hit_promotes_witness :
  let w := world_at sample_time
             (Some {[ "https://edge.example/example.com:A"%string
                      := edge_entry sample_body
                           (Some (sample_time + 120000)) ]}) in
  ∃ c w2,
    resolveRequest sample_toLowerCase sample_Decode sample_Encode sample_optAnswer
      sample_validResponseSize sample_urlOrigin unreachable_upstream
      sample_param w = (Ok (resolved_of c), w2) ∧
    dnsResCache w2 !! "example.com:A"%string = Some (stored_entry c) ∧
    ttlEndTime c = Some (sample_time + 120000) ∧
    httpCache w2 = httpCache w.
Proof.
  intros w.
  destruct (edge_hit_promotes sample_toLowerCase sample_Decode sample_Encode sample_optAnswer
              sample_validResponseSize sample_urlOrigin unreachable_upstream
              sample_param "example.com:A"%string w w _ JFalse _
              eq_refl eq_refl eq_refl eq_refl eq_refl)
    as (w2 & Hr & Hl & Hh & _).
  eexists _, w2. split; [exact Hr|]. split; [exact Hl|].
  split; [reflexivity | exact Hh].
Defined.

Lemma upstream_failure_not_cached_witness :
  let w := sample_world (local_entry sample_body (Some (sample_time - 5000)))
             None in
  resolveRequest sample_toLowerCase sample_Decode sample_Encode sample_optAnswer
    sample_validResponseSize sample_urlOrigin unreachable_upstream
    sample_param w = (Throw (Error "network unreachable"), tick w) ∧
  same_stores w (tick w).
Proof.
  intros w.
  apply (upstream_failure_not_cached sample_toLowerCase sample_Decode sample_Encode
           sample_optAnswer sample_validResponseSize sample_urlOrigin
           unreachable_upstream sample_param w (tick w) (tick w) JFalse);
    reflexivity.
Defined.

Lemma upstreamQuery_throws_iff_witness :
  let w := world_at sample_time None in
  ∃ e w',
    upstreamQuery sample_Decode sample_Encode sample_optAnswer
      sample_validResponseSize unreachable_upstream sample_param w
    = (Throw e, w') ∧ w' = w.
Proof.
  intros w.
  destruct (upstreamQuery_throws_iff sample_Decode sample_Encode
              sample_optAnswer sample_validResponseSize unreachable_upstream
              sample_param w) as [Hiff Hw].
  destruct (proj2 Hiff) as (e & w' & Hq).
  - left. by eexists.
  - exists e, w'. split; [exact Hq|]. exact (Hw e w' Hq).
Defined.

Lemma uncacheable_answer_not_cached_witness :
  let w := world_at sample_time (Some ∅) in
  resolveRequest_upstream sample_toLowerCase nxdomain_Decode sample_Encode sample_optAnswer
    sample_validResponseSize sample_urlOrigin (sample_upstream sample_body)
    sample_param w
  = (Ok {| responseBodyBuffer := sample_body;
           responseDecodedDnsPacket := Some nxdomain_packet |}, tick w).
Proof.
  intros w.
  apply (proj2 (uncacheable_answer_not_cached sample_toLowerCase nxdomain_Decode sample_Encode
                  sample_optAnswer sample_validResponseSize sample_urlOrigin
                  (sample_upstream sample_body) sample_param
                  {| up_ok := true; up_status := 200; up_statusText := "OK";
                     up_body := sample_body |}
                  nxdomain_packet w eq_refl eq_refl eq_refl eq_refl
                  (or_introl eq_refl) eq_refl)).
Defined.

Lemma fresh_answer_is_stored_witness :
  let w := world_at sample_time (Some ∅) in
  ∃ w2,
    S_resolveRequest sample_body sample_param w
      = (Ok (resolved_of sample_fresh_cacheRes), w2) ∧
    dnsResCache w2 !! "example.com:A"%string
      = Some (stored_entry sample_fresh_cacheRes) ∧
    deferred w2 = [] ∧ rejections w2 = [edge_write_error].
Proof.
  intros w.
  destruct (fresh_answer_is_stored sample_toLowerCase sample_Decode sample_Encode
              sample_optAnswer sample_validResponseSize sample_urlOrigin
              (sample_upstream sample_body) sample_param
              "example.com:A"%string w w _ JFalse sample_fresh_cacheRes
              eq_refl eq_refl eq_refl eq_refl eq_refl)
    as (w2 & Hr & Hl & _ & Hd & Hrej).
  exists w2. split; [exact Hr|]. split; [exact Hl|].
  split; [exact Hd | exact Hrej].
Defined.

Lemma udp_truncation_fallback_witness :
  let t := sample_transport (Ok (Some sample_truncated_answer))
             (Ok (Some sample_body)) in
  let env := sample_env (Some t) true false in
  Upstream.resolveDnsUpstream env (sample_request "POST") "resolver.example"
    [x00; x07]
  = (Ok (Some (Upstream.response_of (Some sample_body))),
     [Upstream.UdpQuery [x00; x07]; Upstream.TcpQuery [x00; x07]]).
Proof.
  intros t env.
  destruct (udp_truncation_fallback env t (sample_request "POST")
              "resolver.example" [x00; x07] eq_refl)
    as (Hcalls & Htcp & Hres & _).
  assert (Htr : ∃ a, Upstream.udpquery t [x00; x07] = Ok (Some a)
                     ∧ Upstream.truncated env a = true).
  { exists sample_truncated_answer. split; reflexivity. }
  apply injective_projections.
  - exact (Hres Htr).
  - destruct Hcalls as [Hc|Hc]; [|exact Hc].
    apply Htcp in Htr. rewrite Hc in Htr.
    apply elem_of_cons in Htr as [Htr|Htr]; [discriminate|].
    now apply elem_of_nil in Htr.
Defined.

Lemma only_get_and_post_witness :
  let env := sample_env None false true in
  Upstream.resolveDnsUpstream env (sample_request "PUT") "resolver.example"
    [x00; x07]
  = (Throw (Error "get/post requests only"), []) ∧
  Upstream.resolveDnsUpstream env (sample_request "GET") "" [x00; x07]
  = (Throw (TypeError "Invalid URL"), []).
Proof.
  intros env.
  destruct (only_get_and_post env (sample_request "PUT") "resolver.example"
              [x00; x07] eq_refl) as (H1 & _ & _).
  destruct (only_get_and_post env (sample_request "GET") "" [x00; x07]
              eq_refl) as (_ & _ & H3).
  split.
  - eapply H1; [reflexivity | reflexivity | discriminate | discriminate].
  - eapply H3; reflexivity.
Defined.


Lemma no_datagram_answer_fails_witness :
  let t := sample_transport (Ok (Some sample_truncated_answer)) (Ok None) in
  let env := sample_env (Some t) false false in
  let w := world_at sample_time None in
  upstreamQuery sample_Decode sample_Encode sample_optAnswer
    sample_validResponseSize (Upstream.answer env) sample_param w
  = (Throw (Error "503 http err: "), w).
Proof.
  intros t env w.
  apply (no_datagram_answer_fails sample_Decode sample_Encode
           sample_optAnswer sample_validResponseSize env t sample_param w
           eq_refl).
  right. exists sample_truncated_answer. repeat split.
Defined.

